(** * H2_ALSH: a shallow embedding of the MIP-search reductions

    The development follows the three translation units of the repository:

    - [SRP_LSH]  (src/srp_lsh.cc): the population-count table, the packing of
      sign bits into 64-bit words and the Hamming scoring of [kmc];
    - [L2_ALSH]  (src/l2_alsh.cc): the global asymmetric transform;
    - [H2_ALSH]  (src/h2_alsh.cc): norm blocking, the per-block lift and the
      pruning rules of [kmip].

    Machine integers are modelled by [Z] (or [nat] for loop counters that are
    bounded by an array length), with the wrap-around of unsigned arithmetic
    written out; the one conversion of an [int] to [float] that decides an
    integer result, in [SRP_LSH], is modelled bit for bit.

    The [float] data is modelled twice.  Where a statement is about the
    shape of what is built (which objects go to which block, which formula
    a coordinate follows), [L2_ALSH] and [H2_ALSH] take the real numbers,
    without rounding, and keep the divisors away from zero; the blocking
    ratio [b_] of [H2_ALSH] carries the infinities and the NaN that its
    division and its square root can produce.  Where a statement depends on
    the value of a rounded result (the norm of a lifted vector, the pruning
    tests of [kmip], the sign of a projection), [Binary32], [H2_ALSH_f32],
    [L2_ALSH_f32] and [SRP_LSH_kmc] take IEEE 754 binary32 with every
    operation rounded. *)

From Stdlib Require Import ZArith List Bool Lia Arith.
From Stdlib Require Import Reals Lra Psatz.
From Stdlib Require Import Permutation Sorted.
From Stdlib Require Import QArith SpecFloat.
Import ListNotations.
Close Scope Q_scope.

(* ====================================================================== *)
(** * SRP_LSH (src/srp_lsh.cc) *)
(* ====================================================================== *)

Module SRP_LSH.

Local Open Scope Z_scope.

(** ** Machine arithmetic *)

(** Reduction of an integer to [uint32_t]. *)
Definition u32 (x : Z) : Z := x mod 2 ^ 32.

(** [(float) k] for an [int] k: binary32 has a 24-bit significand, so an
    integer of magnitude below 2^24 converts exactly and a larger one is
    rounded to the nearest multiple of its unit in the last place, ties to the
    even significand.  The result is an integer, returned as a [Z]. *)
Definition float_of_int (k : Z) : Z :=
  let a := Z.abs k in
  if a <? 2 ^ 24 then k
  else
    let e := Z.log2 a - 23 in
    let q := Z.shiftr a e in
    let r := a - Z.shiftl q e in
    let half := Z.shiftl 1 (e - 1) in
    let q' := if (half <? r) || ((half =? r) && Z.odd q) then q + 1 else q in
    Z.sgn k * Z.shiftl q' e.

(** [ceil] of the quotient of an integer by a positive integer. *)
Definition ceil_div (a b : Z) : Z := - ((- a) / b).

(** The same conversion through the IEEE 754 model of the Standard Library
    (precision 24, maximal exponent 128), read back as an integer. *)
Definition Z_of_spec_float (f : spec_float) : option Z :=
  match f with
  | S754_zero _ => Some 0
  | S754_finite s m e =>
      let sign := if s then -1 else 1 in
      if 0 <=? e then Some (sign * (Z.pos m * 2 ^ e))
      else if Z.pos m mod 2 ^ (- e) =? 0
           then Some (sign * (Z.pos m / 2 ^ (- e)))
           else None
  | _ => None
  end.

Definition float_of_int_ieee (k : Z) : option Z :=
  Z_of_spec_float (binary_normalize 24 128 k 0 false).

(** [ceil] of a finite binary32 value. *)
Definition ceil_spec_float (f : spec_float) : option Z :=
  match f with
  | S754_zero _ => Some 0
  | S754_finite s m e =>
      let sm := if s then Z.neg m else Z.pos m in
      if 0 <=? e then Some (sm * 2 ^ e) else Some (ceil_div sm (2 ^ (- e)))
  | _ => None
  end.

(** [(int) ceil(K / 64.0f)] evaluated in that IEEE 754 model. *)
Definition m_ieee (K_ : Z) : option Z :=
  ceil_spec_float
    (SFdiv 24 128 (binary_normalize 24 128 K_ 0 false)
                  (binary_normalize 24 128 64 0 false)).

(** ** Fields of the hasher that the packing depends on *)

(** [m_ = (int) ceil(K / 64.0f)]: K is converted to [float], the division by
    the power of two 64 is exact, and [ceil] yields an integer. *)
Definition m_ (K_ : Z) : Z := ceil_div (float_of_int K_) 64.

(** Agreement of [float_of_int] and of [m_] with the IEEE 754 model on
    [todo] values of [k], [step] apart. *)
Fixpoint ieee_agrees (todo : nat) (k step : Z) : bool :=
  match todo with
  | O => true
  | S todo' =>
      match float_of_int_ieee k, m_ieee k with
      | Some f, Some m => (f =? float_of_int k) && (m =? m_ k)
      | _, _ => false
      end && ieee_agrees todo' (k + step) step
  end.

(** ** Population count *)

(** [bit_count]: the octal masks 033333333333, 011111111111 and 030707070707
    are written in hexadecimal. *)
Definition bit_count (x : Z) : Z :=
  let num := u32 (x - Z.land (Z.shiftr x 1) 0xDB6DB6DB
                    - Z.land (Z.shiftr x 2) 0x49249249) in
  (Z.land (u32 (num + Z.shiftr num 3)) 0xC71C71C7) mod 63.

(** [table16_], filled by the constructor:
    [for (i = 0; i < size; ++i) table16_[i] = bit_count(i)] with
    [size = 1 << 16]. *)
Fixpoint fill_table16 (todo : nat) (i : Z) : list Z :=
  match todo with
  | O => []
  | S todo' => bit_count i :: fill_table16 todo' (i + 1)
  end.

Definition table16_ : list Z := fill_table16 (Z.to_nat (Z.shiftl 1 16)) 0.

Definition table16_at (i : Z) : Z := nth (Z.to_nat i) table16_ 0.

(** [table_lookup] *)
Definition table_lookup (x : Z) : Z :=
  table16_at (Z.land x 0xffff)
  + table16_at (Z.land (Z.shiftr x 16) 0xffff)
  + table16_at (Z.land (Z.shiftr x 32) 0xffff)
  + table16_at (Z.land (Z.shiftr x 48) 0xffff).

(** The number of 1 bits among the [w] low-order bit positions of [x]. *)
Definition popcount (w : nat) (x : Z) : Z :=
  Z.of_nat (length (filter (fun i => Z.testbit x (Z.of_nat i)) (seq 0 w))).

(** ** Packing of the sign bits *)

(** [size] of word [i]: [(i == m_-1 && K_%64 != 0) ? (K_ % 64) : 64].
    C's [%] truncates, which is [Z.rem]. *)
Definition word_size (K_ m : Z) (i : Z) : Z :=
  if (i =? m - 1) && negb (Z.rem K_ 64 =? 0) then Z.rem K_ 64 else 64.

(** The inner loop of [compress_hash_code]: [val] starts at 0 and receives
    bit [63 - j] when [hash_code[j + shift]] is set. *)
Definition pack_word (hash_code : list bool) (shift : Z) (size : nat) : Z :=
  fold_left
    (fun val j =>
       if nth (Z.to_nat (Z.of_nat j + shift)) hash_code false
       then Z.lor val (Z.shiftl 1 (63 - Z.of_nat j))
       else val)
    (seq 0 size) 0.

(** The outer loop, from word [i] on, with [todo] words left to produce. *)
Fixpoint compress_loop (K_ m : Z) (hash_code : list bool)
         (todo : nat) (i shift : Z) : list Z :=
  match todo with
  | O => []
  | S todo' =>
      let size := word_size K_ m i in
      pack_word hash_code shift (Z.to_nat size)
        :: compress_loop K_ m hash_code todo' (i + 1) (shift + size)
  end.

Definition compress_hash_code (K_ : Z) (hash_code : list bool) : list Z :=
  let m := m_ K_ in
  compress_loop K_ m hash_code (Z.to_nat m) 0 0.

(** ** Hamming scoring in [kmc] *)

(** [match += table_lookup(hash_key_[i][j] ^ hash_key_q[j])] over the words. *)
Fixpoint kmc_match (key key_q : list Z) : Z :=
  match key, key_q with
  | w :: key', wq :: key_q' => table_lookup (Z.lxor w wq) + kmc_match key' key_q'
  | _, _ => 0
  end.

(** ** Statements that the claims use *)

(** The check of [bit_count] against [popcount] on [todo] consecutive values
    from [i] on; it is run on all 65536 entries. *)
Fixpoint bit_count_agrees (todo : nat) (i : Z) : bool :=
  match todo with
  | O => true
  | S todo' => (bit_count i =? popcount 16 i) && bit_count_agrees todo' (i + 1)
  end.

(** The final word as the claim C6 words it: no bit is set at or above
    position [K_ mod 64], so that the sign bits sit in the low-order
    [K_ mod 64] positions. *)
Definition final_word_low_order (K_ : Z) (hash_code : list bool) : Prop :=
  forall p, Z.rem K_ 64 <= p ->
    Z.testbit (last (compress_hash_code K_ hash_code) 0) p = false.

(** The sign bits of the final word that differ between two sign sequences. *)
Definition final_word_mismatches (K_ : Z) (hash_code hash_code_q : list bool)
  : Z :=
  let base := 64 * (m_ K_ - 1) in
  Z.of_nat
    (length
       (filter
          (fun j =>
             xorb (nth (Z.to_nat (base + Z.of_nat j)) hash_code false)
                  (nth (Z.to_nat (base + Z.of_nat j)) hash_code_q false))
          (seq 0 (Z.to_nat (Z.rem K_ 64))))).

(** ** Lemmas on the population count *)

Lemma nth_fill_table16 (todo : nat) :
  forall i k, (k < todo)%nat ->
    nth k (fill_table16 todo i) 0 = bit_count (i + Z.of_nat k).
Proof.
  induction todo as [|todo IH]; intros i k Hk; [lia|].
  destruct k as [|k]; cbn [fill_table16 nth].
  - f_equal. lia.
  - rewrite IH by lia. f_equal. lia.
Qed.

Lemma table16_at_bit_count (i : Z) :
  0 <= i < 65536 -> table16_at i = bit_count i.
Proof.
  intros Hi. unfold table16_at, table16_.
  rewrite nth_fill_table16.
  - f_equal. lia.
  - change (Z.shiftl 1 16) with 65536. lia.
Qed.

Lemma bit_count_agrees_spec (todo : nat) :
  forall i, bit_count_agrees todo i = true ->
    forall v, i <= v < i + Z.of_nat todo -> bit_count v = popcount 16 v.
Proof.
  induction todo as [|todo IH]; intros i Hall v Hv; [lia|].
  cbn [bit_count_agrees] in Hall. apply andb_prop in Hall as [Hi Hrest].
  destruct (Z.eq_dec v i) as [->|Hne].
  - now apply Z.eqb_eq.
  - apply (IH (i + 1) Hrest). lia.
Qed.

Lemma bit_count_check : bit_count_agrees (Z.to_nat 65536) 0 = true.
Proof. vm_compute. reflexivity. Qed.

Lemma bit_count_popcount16 (v : Z) :
  0 <= v < 65536 -> bit_count v = popcount 16 v.
Proof.
  intros Hv. apply (bit_count_agrees_spec _ _ bit_count_check).
  rewrite Z2Nat.id; lia.
Qed.

Lemma popcount_split (x : Z) (a b : nat) :
  popcount (a + b) x
  = popcount a x
    + Z.of_nat (length (filter (fun i => Z.testbit x (Z.of_nat i)) (seq a b))).
Proof.
  unfold popcount.
  rewrite seq_app, filter_app, length_app. simpl. lia.
Qed.

Lemma count_bits_shift (x : Z) (s : nat) :
  forall n s0,
    length (filter (fun i => Z.testbit x (Z.of_nat i)) (seq (s0 + s) n))
    = length (filter (fun i => Z.testbit (Z.shiftr x (Z.of_nat s)) (Z.of_nat i))
                     (seq s0 n)).
Proof.
  induction n as [|n IH]; intros s0; [reflexivity|].
  cbn [seq filter].
  rewrite Z.shiftr_spec by lia.
  replace (Z.of_nat s0 + Z.of_nat s) with (Z.of_nat (s0 + s)) by lia.
  specialize (IH (S s0)). cbn [Nat.add] in IH.
  destruct (Z.testbit x (Z.of_nat (s0 + s))); cbn [length]; now rewrite IH.
Qed.

Lemma popcount16_slice (x : Z) (s : nat) :
  popcount 16 (Z.land (Z.shiftr x (Z.of_nat s)) 0xffff)
  = Z.of_nat (length (filter (fun i => Z.testbit x (Z.of_nat i)) (seq s 16))).
Proof.
  unfold popcount. f_equal.
  change (seq s 16) with (seq (0 + s) 16).
  rewrite (count_bits_shift x s 16 0).
  f_equal. apply filter_ext_in. intros i Hi. apply in_seq in Hi.
  rewrite Z.land_spec. change 0xffff with (Z.ones 16).
  rewrite Z.ones_spec_low by lia. apply andb_true_r.
Qed.

Lemma slice_range (x : Z) (s : Z) : 0 <= Z.land (Z.shiftr x s) 0xffff < 65536.
Proof.
  change 0xffff with (Z.ones 16). rewrite Z.land_ones by lia.
  change 65536 with (2 ^ 16). apply Z.mod_pos_bound. lia.
Qed.

Lemma popcount64_slices (x : Z) :
  popcount 64 x
  = popcount 16 (Z.land (Z.shiftr x (Z.of_nat 0)) 0xffff)
    + popcount 16 (Z.land (Z.shiftr x (Z.of_nat 16)) 0xffff)
    + popcount 16 (Z.land (Z.shiftr x (Z.of_nat 32)) 0xffff)
    + popcount 16 (Z.land (Z.shiftr x (Z.of_nat 48)) 0xffff).
Proof.
  rewrite !popcount16_slice.
  change 64%nat with (16 + 16 + 16 + 16)%nat.
  rewrite !popcount_split.
  unfold popcount at 1.
  change (length (filter _ (seq 0 0))) with 0%nat.
  change (0 + 16)%nat with 16%nat.
  change (16 + 16)%nat with 32%nat.
  change (32 + 16)%nat with 48%nat.
  lia.
Qed.

Lemma table_lookup_popcount64 (x : Z) : table_lookup x = popcount 64 x.
Proof.
  unfold table_lookup.
  rewrite popcount64_slices.
  change (Z.of_nat 0) with 0. rewrite Z.shiftr_0_r.
  pose proof (slice_range x 0) as H0. rewrite Z.shiftr_0_r in H0.
  rewrite !table16_at_bit_count by (exact H0 || apply slice_range).
  rewrite !bit_count_popcount16 by (exact H0 || apply slice_range).
  reflexivity.
Qed.

(** ** Lemmas on the conversion and on [m_] *)

Lemma float_of_int_exact (k : Z) : Z.abs k <= 2 ^ 24 -> float_of_int k = k.
Proof.
  intros Hk. unfold float_of_int.
  destruct (Z.ltb_spec (Z.abs k) (2 ^ 24)) as [Hlt|Hge]; [reflexivity|].
  assert (Ha : Z.abs k = 2 ^ 24) by lia.
  rewrite Ha. cbv zeta.
  change (Z.log2 (2 ^ 24) - 23) with 1.
  change (Z.shiftr (2 ^ 24) 1) with 8388608.
  change (Z.shiftl 8388608 1) with (2 ^ 24).
  change (Z.shiftl 1 (1 - 1)) with 1.
  replace (2 ^ 24 - 2 ^ 24) with 0 by lia.
  cbn [Z.ltb Z.eqb Z.compare orb andb].
  change (Z.shiftl 8388608 1) with (2 ^ 24).
  destruct k; cbn [Z.abs Z.sgn] in *; lia.
Qed.

Lemma float_of_int_pos (k : Z) : 0 < k -> 0 < float_of_int k.
Proof.
  intros Hk. unfold float_of_int.
  rewrite Z.abs_eq by lia.
  destruct (Z.ltb_spec k (2 ^ 24)) as [Hlt|Hge]; [exact Hk|].
  cbv zeta.
  set (e := Z.log2 k - 23).
  assert (He : 0 <= e).
  { unfold e. assert (24 <= Z.log2 k); [|lia].
    apply Z.log2_le_pow2; lia. }
  set (q := Z.shiftr k e).
  assert (Hq : 0 < q).
  { unfold q. rewrite Z.shiftr_div_pow2 by exact He.
    apply Z.div_str_pos. split; [apply Z.pow_pos_nonneg; lia|].
    transitivity (2 ^ Z.log2 k).
    - apply Z.pow_le_mono_r; unfold e; lia.
    - apply Z.log2_spec. lia. }
  rewrite Z.sgn_pos by exact Hk. rewrite Z.mul_1_l.
  rewrite Z.shiftl_mul_pow2 by exact He.
  apply Z.mul_pos_pos; [|apply Z.pow_pos_nonneg; lia].
  destruct (_ || _); lia.
Qed.

Lemma m_exact (K_ : Z) : 0 <= K_ <= 2 ^ 24 -> m_ K_ = ceil_div K_ 64.
Proof.
  intros HK. unfold m_. now rewrite float_of_int_exact by (rewrite Z.abs_eq; lia).
Qed.

Lemma m_pos (K_ : Z) : 0 < K_ -> 1 <= m_ K_.
Proof.
  intros HK. unfold m_, ceil_div.
  pose proof (float_of_int_pos K_ HK) as Hf.
  assert ((- float_of_int K_) / 64 < 0); [|lia].
  apply Z.div_lt_upper_bound; lia.
Qed.

(** ** Lemmas on the packing *)

Lemma testbit_pack_word (hash_code : list bool) (shift : Z) (size : nat) :
  (size <= 64)%nat ->
  forall p,
    Z.testbit (pack_word hash_code shift size) p
    = (63 - Z.of_nat size <? p) && (p <=? 63)
      && nth (Z.to_nat (63 - p + shift)) hash_code false.
Proof.
  unfold pack_word. induction size as [|size IH]; intros Hsize p.
  - cbn [seq fold_left]. rewrite Z.bits_0.
    destruct (Z.ltb_spec (63 - Z.of_nat 0) p), (Z.leb_spec p 63);
      cbn [andb]; try reflexivity; lia.
  - rewrite seq_S, fold_left_app. cbn [fold_left Nat.add].
    specialize (IH ltac:(lia)).
    set (old := fold_left _ (seq 0 size) 0) in *.
    assert (Hbit : forall p,
               Z.testbit (Z.shiftl 1 (63 - Z.of_nat size)) p
               = (63 - Z.of_nat size =? p)).
    { intros p'. rewrite Z.shiftl_1_l. destruct (Z.ltb_spec p' 0) as [Hneg|Hpos].
      - rewrite Z.testbit_neg_r by exact Hneg. symmetry. apply Z.eqb_neq. lia.
      - apply Z.pow2_bits_eqb. lia. }
    destruct (Z.eq_dec p (63 - Z.of_nat size)) as [->|Hne].
    + replace (63 - (63 - Z.of_nat size) + shift) with (Z.of_nat size + shift)
        by lia.
      destruct (nth (Z.to_nat (Z.of_nat size + shift)) hash_code false) eqn:Hn.
      * rewrite Z.lor_spec, Hbit, Z.eqb_refl, orb_true_r.
        destruct (Z.ltb_spec (63 - Z.of_nat (S size)) (63 - Z.of_nat size)),
                 (Z.leb_spec (63 - Z.of_nat size) 63);
          cbn [andb]; try reflexivity; lia.
      * rewrite IH. rewrite Z.ltb_irrefl. cbn [andb].
        now rewrite andb_false_r.
    + assert (Hsame : Z.testbit
                (if nth (Z.to_nat (Z.of_nat size + shift)) hash_code false
                 then Z.lor old (Z.shiftl 1 (63 - Z.of_nat size)) else old) p
              = Z.testbit old p).
      { destruct (nth _ hash_code false); [|reflexivity].
        rewrite Z.lor_spec, Hbit.
        replace (63 - Z.of_nat size =? p) with false
          by (symmetry; apply Z.eqb_neq; lia).
        apply orb_false_r. }
      rewrite Hsame, IH. f_equal. f_equal.
      destruct (Z.ltb_spec (63 - Z.of_nat size) p),
               (Z.ltb_spec (63 - Z.of_nat (S size)) p); try reflexivity; lia.
Qed.

Lemma length_compress_loop (K_ m : Z) (hash_code : list bool) (todo : nat) :
  forall i shift, length (compress_loop K_ m hash_code todo i shift) = todo.
Proof.
  induction todo as [|todo IH]; intros i shift; cbn [compress_loop length];
    [reflexivity | now rewrite IH].
Qed.

Lemma nth_compress_loop (K_ m : Z) (hash_code : list bool) (todo : nat) :
  forall i shift w,
    (w < todo)%nat -> i + Z.of_nat todo <= m ->
    nth w (compress_loop K_ m hash_code todo i shift) 0
    = pack_word hash_code (shift + 64 * Z.of_nat w)
                (Z.to_nat (word_size K_ m (i + Z.of_nat w))).
Proof.
  induction todo as [|todo IH]; intros i shift w Hw Hm; [lia|].
  cbn [compress_loop]. destruct w as [|w]; cbn [nth].
  - now rewrite Z.mul_0_r, !Z.add_0_r.
  - rewrite IH by lia.
    assert (Hsize : word_size K_ m i = 64).
    { unfold word_size.
      replace (i =? m - 1) with false by (symmetry; apply Z.eqb_neq; lia).
      reflexivity. }
    rewrite Hsize. f_equal; [lia|]. do 2 f_equal. lia.
Qed.

Lemma length_compress_hash_code (K_ : Z) (hash_code : list bool) :
  length (compress_hash_code K_ hash_code) = Z.to_nat (m_ K_).
Proof. apply length_compress_loop. Qed.

Lemma word_size_range (K_ m i : Z) :
  0 < K_ -> 0 < word_size K_ m i <= 64.
Proof.
  intros HK. unfold word_size.
  pose proof (Z.rem_bound_pos K_ 64 ltac:(lia) ltac:(lia)) as Hr.
  destruct ((i =? m - 1) && negb (Z.rem K_ 64 =? 0)) eqn:Hc; [|lia].
  apply andb_prop in Hc as [_ Hc]. apply negb_true_iff, Z.eqb_neq in Hc. lia.
Qed.

(** Bit layout of every word produced for [K_] sign bits: word [w] holds
    [hash_code[64 * w + j]] at bit [63 - j] for [j] below the size of the
    word, and no other bit is set. *)
Lemma compress_hash_code_layout (K_ : Z) (hash_code : list bool) (w : Z) :
  0 < K_ -> 0 <= w < m_ K_ ->
  forall p,
    Z.testbit (nth (Z.to_nat w) (compress_hash_code K_ hash_code) 0) p
    = (63 - word_size K_ (m_ K_) w <? p) && (p <=? 63)
      && nth (Z.to_nat (64 * w + (63 - p))) hash_code false.
Proof.
  intros HK Hw p. unfold compress_hash_code. cbv zeta.
  rewrite nth_compress_loop by lia.
  rewrite Z2Nat.id, !Z.add_0_l by lia.
  pose proof (word_size_range K_ (m_ K_) w HK) as Hs.
  rewrite testbit_pack_word by lia.
  rewrite Z2Nat.id by lia.
  do 3 f_equal. lia.
Qed.

Lemma last_nth_pred {A : Type} (l : list A) (d : A) :
  last l d = nth (length l - 1) l d.
Proof.
  induction l as [|a [|b l] IH]; try reflexivity.
  change (last (a :: b :: l) d) with (last (b :: l) d). rewrite IH.
  cbn [length nth Nat.sub]. now rewrite Nat.sub_0_r.
Qed.

(** The final word of a packed signature is word [m_ - 1]. *)
Lemma last_compress_hash_code (K_ : Z) (hash_code : list bool) :
  last (compress_hash_code K_ hash_code) 0
  = nth (Z.to_nat (m_ K_ - 1)) (compress_hash_code K_ hash_code) 0.
Proof.
  rewrite last_nth_pred, length_compress_hash_code. f_equal. lia.
Qed.

Lemma final_word_size (K_ : Z) :
  Z.rem K_ 64 <> 0 -> word_size K_ (m_ K_) (m_ K_ - 1) = Z.rem K_ 64.
Proof.
  intros Hr. unfold word_size. rewrite Z.eqb_refl.
  replace (Z.rem K_ 64 =? 0) with false by (symmetry; now apply Z.eqb_neq).
  reflexivity.
Qed.

Lemma filter_none {A : Type} (f : A -> bool) (l : list A) :
  (forall a, In a l -> f a = false) -> filter f l = [].
Proof.
  induction l as [|a l IH]; intros Hf; [reflexivity|].
  cbn [filter]. rewrite (Hf a) by now left.
  apply IH. intros b Hb. apply Hf. now right.
Qed.

(** Counting over the bit positions 63, 62, ..., 0 instead of 0, ..., 63. *)
Lemma count_mirror64 (F : nat -> bool) :
  length (filter (fun i => F (63 - i)%nat) (seq 0 64))
  = length (filter F (seq 0 64)).
Proof.
  pose proof (filter_map_swap F (fun i => (63 - i)%nat) (seq 0 64)) as Hswap.
  apply (f_equal (@length nat)) in Hswap. rewrite length_map in Hswap.
  rewrite <- Hswap.
  replace (map (fun i => (63 - i)%nat) (seq 0 64)) with (rev (seq 0 64))
    by reflexivity.
  now rewrite filter_rev, length_rev.
Qed.

(** The final word enters the mismatch count of [kmc] through one table
    lookup on its XOR with the final word of the query. *)
Lemma kmc_match_final_word (key key_q : list Z) (w wq : Z) :
  length key = length key_q ->
  kmc_match (key ++ [w]) (key_q ++ [wq])
  = kmc_match key key_q + table_lookup (Z.lxor w wq).
Proof.
  revert key_q. induction key as [|a key IH]; intros [|b key_q] Hlen;
    cbn in Hlen; try discriminate; cbn [app kmc_match].
  - lia.
  - rewrite IH by lia. lia.
Qed.

(** ** The packing on small inputs *)

Example m_64 : m_ 64 = 1.
Proof. reflexivity. Qed.

Example m_65 : m_ 65 = 2.
Proof. reflexivity. Qed.

Example bit_count_0xF0F1 : bit_count 0xF0F1 = 9.
Proof. reflexivity. Qed.

Example compress_hash_code_1 : compress_hash_code 1 [true] = [Z.shiftl 1 63].
Proof. reflexivity. Qed.

Example compress_hash_code_65 :
  compress_hash_code 65 (repeat true 64 ++ [true])
  = [Z.ones 64; Z.shiftl 1 63].
Proof. vm_compute. reflexivity. Qed.

Example compress_hash_code_70 :
  compress_hash_code 70 (repeat false 64 ++ [true; false; true; true; false; true])
  = [0; 0xB400000000000000].
Proof. vm_compute. reflexivity. Qed.

(** ** The packing claims *)

(** C6, counterexample: for [K_ = 1] and the sign sequence [true] the only
    word is [1 << 63]; its sign bit is at position 63, not at position 0. *)
Lemma final_word_low_order_fails : ~ final_word_low_order 1 [true].
Proof.
  intros H. specialize (H 63 ltac:(vm_compute; discriminate)).
  vm_compute in H. discriminate.
Qed.

(** C6, amended: for [K_] not a multiple of 64 the final word of every
    packed signature carries its sign bits in the HIGH-order [K_ mod 64]
    positions (sign bit [j] of the word at bit [63 - j]), its low-order
    [64 - K_ mod 64] positions are 0, and the table lookup on the XOR of two
    final words counts exactly the differing sign bits of those high-order
    positions. *)
Theorem final_word_high_order (K_ : Z) (hash_code hash_code_q : list bool) :
  0 < K_ -> Z.rem K_ 64 <> 0 ->
  let w := last (compress_hash_code K_ hash_code) 0 in
  let wq := last (compress_hash_code K_ hash_code_q) 0 in
  (forall j, 0 <= j < Z.rem K_ 64 ->
     Z.testbit w (63 - j)
     = nth (Z.to_nat (64 * (m_ K_ - 1) + j)) hash_code false)
  /\ (forall p, 0 <= p < 64 - Z.rem K_ 64 -> Z.testbit w p = false)
  /\ table_lookup (Z.lxor w wq)
     = final_word_mismatches K_ hash_code hash_code_q.
Proof.
  intros HK Hr w wq.
  pose proof (m_pos K_ HK) as Hm.
  pose proof (Z.rem_bound_pos K_ 64 ltac:(lia) ltac:(lia)) as Hrem.
  assert (Hbits : forall h p,
             Z.testbit (last (compress_hash_code K_ h) 0) p
             = (63 - Z.rem K_ 64 <? p) && (p <=? 63)
               && nth (Z.to_nat (64 * (m_ K_ - 1) + (63 - p))) h false).
  { intros h p. rewrite last_compress_hash_code.
    rewrite compress_hash_code_layout by lia.
    now rewrite final_word_size by exact Hr. }
  split; [|split].
  - intros j Hj. unfold w. rewrite Hbits.
    replace (63 - (63 - j)) with j by lia.
    destruct (Z.ltb_spec (63 - Z.rem K_ 64) (63 - j)),
             (Z.leb_spec (63 - j) 63); cbn [andb]; try reflexivity; lia.
  - intros p Hp. unfold w. rewrite Hbits.
    destruct (Z.ltb_spec (63 - Z.rem K_ 64) p); [lia|reflexivity].
  - rewrite table_lookup_popcount64. unfold popcount, final_word_mismatches.
    f_equal.
    set (D := fun j : nat =>
                xorb (nth (Z.to_nat (64 * (m_ K_ - 1) + Z.of_nat j))
                          hash_code false)
                     (nth (Z.to_nat (64 * (m_ K_ - 1) + Z.of_nat j))
                          hash_code_q false)).
    set (F := fun j : nat => (j <? Z.to_nat (Z.rem K_ 64))%nat && D j).
    transitivity (length (filter (fun i => F (63 - i)%nat) (seq 0 64))).
    { f_equal. apply filter_ext_in. intros i Hi. apply in_seq in Hi.
      rewrite Z.lxor_spec. unfold w, wq. rewrite !Hbits.
      unfold F, D.
      replace (64 * (m_ K_ - 1) + Z.of_nat (63 - i))
        with (64 * (m_ K_ - 1) + (63 - Z.of_nat i)) by lia.
      replace (Z.of_nat i <=? 63) with true by (symmetry; apply Z.leb_le; lia).
      replace (63 - Z.rem K_ 64 <? Z.of_nat i)
        with (63 - i <? Z.to_nat (Z.rem K_ 64))%nat.
      - now destruct (63 - i <? Z.to_nat (Z.rem K_ 64))%nat,
                     (nth _ hash_code false), (nth _ hash_code_q false).
      - destruct (Nat.ltb_spec (63 - i) (Z.to_nat (Z.rem K_ 64))),
                 (Z.ltb_spec (63 - Z.rem K_ 64) (Z.of_nat i));
          try reflexivity; lia. }
    rewrite count_mirror64.
    replace 64%nat
      with (Z.to_nat (Z.rem K_ 64) + (64 - Z.to_nat (Z.rem K_ 64)))%nat at 1
      by lia.
    rewrite seq_app, filter_app, length_app.
    rewrite (filter_none F (seq _ (64 - _))).
    + cbn [length]. rewrite Nat.add_0_r. f_equal.
      apply filter_ext_in. intros j Hj. apply in_seq in Hj. unfold F.
      replace (j <? Z.to_nat (Z.rem K_ 64))%nat with true
        by (symmetry; apply Nat.ltb_lt; lia).
      reflexivity.
    + intros j Hj. apply in_seq in Hj. unfold F.
      replace (j <? Z.to_nat (Z.rem K_ 64))%nat with false
        by (symmetry; apply Nat.ltb_ge; lia).
      reflexivity.
Qed.

Lemma final_word_high_order_witness :
  let w := last (compress_hash_code 70 (repeat true 70)) 0 in
  let wq := last (compress_hash_code 70 (repeat false 70)) 0 in
  (forall j, 0 <= j < Z.rem 70 64 ->
     Z.testbit w (63 - j)
     = nth (Z.to_nat (64 * (m_ 70 - 1) + j)) (repeat true 70) false)
  /\ (forall p, 0 <= p < 64 - Z.rem 70 64 -> Z.testbit w p = false)
  /\ table_lookup (Z.lxor w wq)
     = final_word_mismatches 70 (repeat true 70) (repeat false 70).
Proof.
  apply (final_word_high_order 70 (repeat true 70) (repeat false 70)).
  - lia.
  - vm_compute. discriminate.
Defined.

(** C7 at the input [K_ = 16777217 = 2^24 + 1]: the conversion to [float]
    rounds [K_] to 2^24, so that [m_] is 262144 and every packed signature
    has 262144 words, one fewer than [ceil(K_ / 64) = 262145]. *)
Theorem compress_hash_code_short (hash_code : list bool) :
  m_ 16777217 = 262144
  /\ m_ieee 16777217 = Some 262144
  /\ ceil_div 16777217 64 = 262145
  /\ length (compress_hash_code 16777217 hash_code) = Z.to_nat 262144.
Proof.
  split; [reflexivity|]. split; [reflexivity|]. split; [reflexivity|].
  rewrite length_compress_hash_code. reflexivity.
Qed.

(** The conversion and [m_] agree with the IEEE 754 model of the Standard
    Library on the small values of [K_], around 2^24, and on two sweeps of
    the larger [int] values up to 2^31. *)
Lemma float_of_int_ieee_agrees :
  ieee_agrees 3000 1 1 = true
  /\ ieee_agrees 3000 (2 ^ 24 - 100) 1 = true
  /\ ieee_agrees 3000 (2 ^ 24) 3001 = true
  /\ ieee_agrees 3000 (2 ^ 25) 704641 = true.
Proof. vm_compute. repeat split. Qed.

(** Where the conversion is exact, the packing is as C7 describes it:
    [ceil(K_ / 64)] words, sign bit [64 * w + j] at bit [63 - j] of word [w],
    every other bit 0. *)
Lemma compress_hash_code_msb_first (K_ : Z) (hash_code : list bool) :
  0 < K_ <= 2 ^ 24 ->
  length (compress_hash_code K_ hash_code) = Z.to_nat (ceil_div K_ 64)
  /\ forall w, 0 <= w < ceil_div K_ 64 ->
       let size := word_size K_ (ceil_div K_ 64) w in
       (forall j, 0 <= j < size ->
          Z.testbit (nth (Z.to_nat w) (compress_hash_code K_ hash_code) 0)
                    (63 - j)
          = nth (Z.to_nat (64 * w + j)) hash_code false)
       /\ (forall p, p < 64 - size \/ 63 < p ->
             Z.testbit (nth (Z.to_nat w) (compress_hash_code K_ hash_code) 0) p
             = false).
Proof.
  intros HK. rewrite length_compress_hash_code.
  rewrite <- (m_exact K_) by lia. split; [reflexivity|].
  intros w Hw size. subst size.
  pose proof (word_size_range K_ (m_ K_) w ltac:(lia)) as Hs.
  split.
  - intros j Hj. rewrite compress_hash_code_layout by lia.
    replace (63 - (63 - j)) with j by lia.
    destruct (Z.ltb_spec (63 - word_size K_ (m_ K_) w) (63 - j)),
             (Z.leb_spec (63 - j) 63); cbn [andb]; try reflexivity; lia.
  - intros p Hp. rewrite compress_hash_code_layout by lia.
    destruct (Z.ltb_spec (63 - word_size K_ (m_ K_) w) p),
             (Z.leb_spec p 63); cbn [andb]; try reflexivity; lia.
Qed.

(** C9: every entry [table16_[v]] is the number of 1 bits of the 16-bit value
    [v], and [table_lookup x] is the number of 1 bits of the 64-bit word
    [x]. *)
Theorem table_lookup_counts_bits (v x : Z) :
  0 <= v < 65536 -> 0 <= x < 2 ^ 64 ->
  table16_at v = bit_count v
  /\ bit_count v = popcount 16 v
  /\ table_lookup x = popcount 64 x.
Proof.
  intros Hv Hx. split; [|split].
  - now apply table16_at_bit_count.
  - now apply bit_count_popcount16.
  - apply table_lookup_popcount64.
Qed.

Lemma table_lookup_counts_bits_witness :
  table16_at 0x1234 = bit_count 0x1234
  /\ bit_count 0x1234 = popcount 16 0x1234
  /\ table_lookup 0xF00000000000FFFF = popcount 64 0xF00000000000FFFF.
Proof.
  apply (table_lookup_counts_bits 0x1234 0xF00000000000FFFF); lia.
Defined.

(** ** [bit_count] on every 32-bit value *)

(** The proof goes by chunks of 12 bits: four octal digits, which are two
    of the 6-bit fields of the last step, so that no step of [bit_count]
    carries or borrows across a chunk boundary.  [chunk_num] and [chunk_sum]
    are the steps of [bit_count] with the masks cut to 12 bits. *)
Definition chunk_num (y : Z) : Z :=
  y - Z.land (y / 2) 0x6DB - Z.land (y / 4) 0x249.

Definition chunk_sum (n : Z) : Z := Z.land (n + n / 8) 0x1C7.

(** What is checked on a chunk [y] and on the bits [e] that a shift brings
    in from the next chunk. *)
Definition chunk_ok (y e : Z) : bool :=
  let n := chunk_num y in
  (0 <=? n) && (n <=? y) && (n mod 8 <=? 3)
  && (n + n / 8 + 512 * 3 <? 4096)
  && implb (y <? 256) (n + n / 8 <? 256)
  && (chunk_sum n mod 63 =? popcount 12 y)
  && (Z.land (y / 2 + 2048 * (e mod 2)) 0x6DB =? Z.land (y / 2) 0x6DB)
  && (Z.land (y / 4 + 1024 * e) 0x249 =? Z.land (y / 4) 0x249)
  && (Z.land (n + n / 8 + 512 * e) 0x1C7 =? chunk_sum n)
  && implb (y <? 256)
       ((Z.land (y / 2) 0xDB =? Z.land (y / 2) 0x6DB)
        && (Z.land (y / 4) 0x49 =? Z.land (y / 4) 0x249)
        && (Z.land (n + n / 8) 0xC7 =? chunk_sum n)).

Fixpoint chunks_ok (todo : nat) (y : Z) : bool :=
  match todo with
  | O => true
  | S todo' =>
      chunk_ok y 0 && chunk_ok y 1 && chunk_ok y 2 && chunk_ok y 3
      && chunks_ok todo' (y + 1)
  end.

Lemma chunks_ok_check : chunks_ok (Z.to_nat 4096) 0 = true.
Proof. vm_compute. reflexivity. Qed.

Lemma chunks_ok_spec (todo : nat) :
  forall y0, chunks_ok todo y0 = true ->
    forall y e, y0 <= y < y0 + Z.of_nat todo -> 0 <= e < 4 ->
      chunk_ok y e = true.
Proof.
  induction todo as [|todo IH]; intros y0 Hall y e Hy He; [lia|].
  cbn [chunks_ok] in Hall.
  apply andb_prop in Hall as [Hall Hrest].
  apply andb_prop in Hall as [Hall H3].
  apply andb_prop in Hall as [Hall H2].
  apply andb_prop in Hall as [H0 H1].
  destruct (Z.eq_dec y y0) as [->|Hne].
  - assert (He' : e = 0 \/ e = 1 \/ e = 2 \/ e = 3) by lia.
    destruct He' as [->|[->|[->| ->]]]; assumption.
  - apply (IH (y0 + 1) Hrest); lia.
Qed.

Lemma chunk_facts (y e : Z) :
  0 <= y < 4096 -> 0 <= e < 4 ->
  let n := chunk_num y in
  0 <= n <= y /\ n mod 8 <= 3 /\ n + n / 8 + 512 * 3 < 4096
  /\ (y < 256 -> n + n / 8 < 256)
  /\ chunk_sum n mod 63 = popcount 12 y
  /\ Z.land (y / 2 + 2048 * (e mod 2)) 0x6DB = Z.land (y / 2) 0x6DB
  /\ Z.land (y / 4 + 1024 * e) 0x249 = Z.land (y / 4) 0x249
  /\ Z.land (n + n / 8 + 512 * e) 0x1C7 = chunk_sum n
  /\ (y < 256 ->
      Z.land (y / 2) 0xDB = Z.land (y / 2) 0x6DB
      /\ Z.land (y / 4) 0x49 = Z.land (y / 4) 0x249
      /\ Z.land (n + n / 8) 0xC7 = chunk_sum n).
Proof.
  intros Hy He n.
  pose proof (chunks_ok_spec _ _ chunks_ok_check y e) as Hok.
  rewrite Z2Nat.id in Hok by lia. specialize (Hok ltac:(lia) He).
  unfold chunk_ok in Hok. cbv zeta in Hok. fold n in Hok.
  repeat (apply andb_prop in Hok as [Hok ?]).
  repeat match goal with
         | H : (_ <=? _) = true |- _ => apply Z.leb_le in H
         | H : (_ <? _) = true |- _ => apply Z.ltb_lt in H
         | H : (_ =? _) = true |- _ => apply Z.eqb_eq in H
         end.
  assert (Himp1 : y < 256 -> n + n / 8 < 256).
  { intros Hs.
    match goal with
    | H : implb (y <? 256) (n + n / 8 <? 256) = true |- _ =>
        replace (y <? 256) with true in H by (symmetry; apply Z.ltb_lt; lia);
        cbn [implb] in H; now apply Z.ltb_lt in H
    end. }
  assert (Himp2 : y < 256 ->
                  Z.land (y / 2) 0xDB = Z.land (y / 2) 0x6DB
                  /\ Z.land (y / 4) 0x49 = Z.land (y / 4) 0x249
                  /\ Z.land (n + n / 8) 0xC7 = chunk_sum n).
  { intros Hs.
    match goal with
    | H : implb (y <? 256) (_ && _ && _) = true |- _ =>
        replace (y <? 256) with true in H by (symmetry; apply Z.ltb_lt; lia);
        cbn [implb] in H;
        apply andb_prop in H as [H Hc3]; apply andb_prop in H as [Hc1 Hc2];
        apply Z.eqb_eq in Hc1; apply Z.eqb_eq in Hc2; apply Z.eqb_eq in Hc3
    end.
    repeat split; assumption. }
  split; [lia|]. repeat (split; [assumption|]). exact Himp2.
Qed.

(** Bits of a sum of two aligned parts. *)
Lemma testbit_split (k u v i : Z) :
  0 <= k -> 0 <= u < 2 ^ k -> 0 <= i ->
  Z.testbit (u + 2 ^ k * v) i
  = if i <? k then Z.testbit u i else Z.testbit v (i - k).
Proof.
  intros Hk Hu Hi. destruct (Z.ltb_spec i k) as [Hlt|Hge].
  - rewrite <- (Z.mod_pow2_bits_low (u + 2 ^ k * v) k i) by lia.
    rewrite (Z.mul_comm (2 ^ k) v), Z.mod_add by lia.
    now rewrite Z.mod_small by lia.
  - replace i with (i - k + k) at 1 by lia.
    rewrite <- Z.div_pow2_bits by lia.
    rewrite (Z.mul_comm (2 ^ k) v), Z.div_add by lia.
    now rewrite Z.div_small by lia.
Qed.

Lemma land_low_range (k u w : Z) :
  0 <= k -> 0 <= u < 2 ^ k -> 0 <= Z.land u w < 2 ^ k.
Proof.
  intros Hk Hu.
  assert (Hmod : Z.land u w = Z.land u w mod 2 ^ k).
  { apply Z.bits_inj'. intros i Hi.
    destruct (Z.lt_ge_cases i k) as [Hlt|Hge].
    - now rewrite Z.mod_pow2_bits_low by lia.
    - rewrite Z.mod_pow2_bits_high by lia.
      rewrite Z.land_spec, <- (Z.mod_small u (2 ^ k)) by lia.
      now rewrite Z.mod_pow2_bits_high by lia. }
  rewrite Hmod. apply Z.mod_pos_bound. lia.
Qed.

(** [&] on a sum of two aligned parts works part by part. *)
Lemma land_split (k u v m : Z) :
  0 <= k -> 0 <= u < 2 ^ k ->
  Z.land (u + 2 ^ k * v) m
  = Z.land u (m mod 2 ^ k) + 2 ^ k * Z.land v (m / 2 ^ k).
Proof.
  intros Hk Hu. apply Z.bits_inj'. intros i Hi.
  rewrite Z.land_spec, !testbit_split
    by (try apply land_low_range; lia).
  destruct (Z.ltb_spec i k) as [Hlt|Hge]; rewrite Z.land_spec.
  - now rewrite Z.mod_pow2_bits_low by lia.
  - rewrite Z.div_pow2_bits by lia.
    now replace (i - k + k) with i by lia.
Qed.

(** The same on three parts of 12, 12 and the remaining bits. *)
Lemma land_chunks (u v t m0 m1 m2 m : Z) :
  0 <= u < 4096 -> 0 <= v < 4096 ->
  m mod 4096 = m0 -> (m / 4096) mod 4096 = m1 -> m / 4096 / 4096 = m2 ->
  Z.land (u + 4096 * (v + 4096 * t)) m
  = Z.land u m0 + 4096 * (Z.land v m1 + 4096 * Z.land t m2).
Proof.
  intros Hu Hv <- <- <-. change 4096 with (2 ^ 12).
  rewrite land_split by lia. f_equal. f_equal.
  now rewrite land_split by lia.
Qed.

Lemma popcount_le (w : nat) (x : Z) : 0 <= popcount w x <= Z.of_nat w.
Proof.
  unfold popcount.
  pose proof (filter_length_le (fun i => Z.testbit x (Z.of_nat i)) (seq 0 w))
    as Hle.
  rewrite length_seq in Hle. lia.
Qed.

(** The bits of a chunk are the bits of the word at the chunk's place. *)
Lemma popcount_chunk (x : Z) (s : nat) :
  popcount 12 ((x / 2 ^ Z.of_nat s) mod 4096)
  = Z.of_nat (length (filter (fun i => Z.testbit x (Z.of_nat i)) (seq s 12))).
Proof.
  unfold popcount. f_equal.
  change (seq s 12) with (seq (0 + s) 12).
  rewrite (count_bits_shift x s 12 0).
  f_equal. apply filter_ext_in. intros i Hi. apply in_seq in Hi.
  change 4096 with (2 ^ 12).
  rewrite Z.mod_pow2_bits_low by lia.
  now rewrite Z.shiftr_div_pow2 by lia.
Qed.

Lemma popcount32_chunks (x : Z) :
  0 <= x < 2 ^ 32 ->
  popcount 32 x
  = popcount 12 (x mod 4096) + popcount 12 ((x / 4096) mod 4096)
    + popcount 12 (x / 4096 / 4096).
Proof.
  intros Hx.
  assert (H36 : popcount 36 x = popcount 32 x).
  { change 36%nat with (32 + 4)%nat. rewrite popcount_split.
    rewrite filter_none; [cbn [length]; lia|].
    intros i Hi. apply in_seq in Hi.
    apply Z.bits_above_log2; [lia|].
    destruct (Z.eq_dec x 0) as [->|Hnz]; [cbn; lia|].
    assert (Z.log2 x < 32) by (apply Z.log2_lt_pow2; lia). lia. }
  rewrite <- H36.
  change 36%nat with (12 + 12 + 12)%nat. rewrite !popcount_split.
  pose proof (popcount_chunk x 0) as H0.
  pose proof (popcount_chunk x 12) as H1.
  pose proof (popcount_chunk x 24) as H2.
  change (2 ^ Z.of_nat 0) with 1 in H0. rewrite Z.div_1_r in H0.
  change (2 ^ Z.of_nat 12) with 4096 in H1.
  change (2 ^ Z.of_nat 24) with (4096 * 4096) in H2.
  rewrite <- Z.div_div in H2 by lia.
  rewrite (Z.mod_small (x / 4096 / 4096)) in H2
    by (change (2 ^ 32) with 4294967296 in Hx;
        Z.to_euclidean_division_equations; lia).
  rewrite H0, H1, H2. unfold popcount at 1.
  change (12 + 12)%nat with 24%nat. lia.
Qed.

(** [bit_count] counts the 1 bits of every [uint32_t] value. *)
Lemma bit_count_chunks (x : Z) :
  0 <= x < 2 ^ 32 -> bit_count x = popcount 32 x.
Proof.
  intros Hx. change (2 ^ 32) with 4294967296 in Hx.
  set (a := x mod 4096). set (b := (x / 4096) mod 4096).
  set (c := x / 4096 / 4096).
  assert (Ha : 0 <= a < 4096) by (apply Z.mod_pos_bound; lia).
  assert (Hb : 0 <= b < 4096) by (apply Z.mod_pos_bound; lia).
  assert (Hc : 0 <= c < 256)
    by (unfold c; Z.to_euclidean_division_equations; lia).
  assert (Hxabc : x = a + 4096 * (b + 4096 * c))
    by (unfold a, b, c; Z.to_euclidean_division_equations; lia).
  rewrite popcount32_chunks by (change (2 ^ 32) with 4294967296; lia).
  fold a b c.
  destruct (chunk_facts a (b mod 4) Ha ltac:(apply Z.mod_pos_bound; lia))
    as (Hna & _ & _ & _ & Hpa & Ha1 & Ha2 & _ & _).
  destruct (chunk_facts b (c mod 4) Hb ltac:(apply Z.mod_pos_bound; lia))
    as (Hnb & Hdb & Hsb & _ & Hpb & Hb1 & Hb2 & _ & _).
  destruct (chunk_facts c 0 ltac:(lia) ltac:(lia))
    as (Hnc & Hdc & _ & Hsc & Hpc & _ & _ & _ & Hc3).
  destruct (Hc3 ltac:(lia)) as (Hc1 & Hc2 & Hc4). specialize (Hsc ltac:(lia)).
  cbv zeta in *.
  set (na := chunk_num a) in *. set (nb := chunk_num b) in *.
  set (nc := chunk_num c) in *.
  destruct (chunk_facts a (nb mod 8) Ha ltac:(split; [apply Z.mod_pos_bound|]; lia))
    as (_ & _ & Hsa & _ & _ & _ & _ & Ha3 & _).
  destruct (chunk_facts b (nc mod 8) Hb ltac:(split; [apply Z.mod_pos_bound|]; lia))
    as (_ & _ & _ & _ & _ & _ & _ & Hb3 & _).
  cbv zeta in *. fold na nb in Hsa, Ha3, Hb3.
  (* the two masked shifts, chunk by chunk *)
  assert (HA : Z.land (Z.shiftr x 1) 0xDB6DB6DB
               = Z.land (a / 2) 0x6DB
                 + 4096 * (Z.land (b / 2) 0x6DB + 4096 * Z.land (c / 2) 0x6DB)).
  { rewrite Z.shiftr_div_pow2 by lia. change (2 ^ 1) with 2.
    replace (x / 2)
      with (a / 2 + 2048 * ((b mod 4) mod 2)
            + 4096 * (b / 2 + 2048 * ((c mod 4) mod 2) + 4096 * (c / 2)))
      by (rewrite Hxabc; Z.to_euclidean_division_equations; lia).
    rewrite (land_chunks _ _ _ 0x6DB 0x6DB 0xDB)
      by (try reflexivity; Z.to_euclidean_division_equations; lia).
    now rewrite Ha1, Hb1, Hc1. }
  assert (HB : Z.land (Z.shiftr x 2) 0x49249249
               = Z.land (a / 4) 0x249
                 + 4096 * (Z.land (b / 4) 0x249 + 4096 * Z.land (c / 4) 0x249)).
  { rewrite Z.shiftr_div_pow2 by lia. change (2 ^ 2) with 4.
    replace (x / 4)
      with (a / 4 + 1024 * (b mod 4)
            + 4096 * (b / 4 + 1024 * (c mod 4) + 4096 * (c / 4)))
      by (rewrite Hxabc; Z.to_euclidean_division_equations; lia).
    rewrite (land_chunks _ _ _ 0x249 0x249 0x49)
      by (try reflexivity; Z.to_euclidean_division_equations; lia).
    now rewrite Ha2, Hb2, Hc2. }
  unfold bit_count. cbv zeta. rewrite HA, HB.
  assert (Hnum : x - (Z.land (a / 2) 0x6DB
                      + 4096 * (Z.land (b / 2) 0x6DB + 4096 * Z.land (c / 2) 0x6DB))
                   - (Z.land (a / 4) 0x249
                      + 4096 * (Z.land (b / 4) 0x249 + 4096 * Z.land (c / 4) 0x249))
                 = na + 4096 * (nb + 4096 * nc))
    by (unfold na, nb, nc, chunk_num; lia).
  rewrite Hnum.
  assert (Hu : u32 (na + 4096 * (nb + 4096 * nc)) = na + 4096 * (nb + 4096 * nc))
    by (unfold u32; change (2 ^ 32) with 4294967296; apply Z.mod_small; lia).
  rewrite !Hu.
  rewrite Z.shiftr_div_pow2 by lia. change (2 ^ 3) with 8.
  assert (Hsum : na + 4096 * (nb + 4096 * nc) + (na + 4096 * (nb + 4096 * nc)) / 8
                 = (na + na / 8 + 512 * (nb mod 8))
                   + 4096 * ((nb + nb / 8 + 512 * (nc mod 8))
                             + 4096 * (nc + nc / 8)))
    by (Z.to_euclidean_division_equations; lia).
  rewrite Hsum.
  unfold u32. change (2 ^ 32) with 4294967296.
  assert (Hda : 0 <= nb mod 8) by (apply Z.mod_pos_bound; lia).
  assert (Hdd : 0 <= nc mod 8) by (apply Z.mod_pos_bound; lia).
  assert (Hqa : 0 <= na / 8) by (apply Z.div_pos; lia).
  assert (Hqb : 0 <= nb / 8) by (apply Z.div_pos; lia).
  assert (Hqc : 0 <= nc / 8) by (apply Z.div_pos; lia).
  rewrite (Z.mod_small (_ + 4096 * _) 4294967296) by lia.
  rewrite (land_chunks _ _ _ 0x1C7 0x1C7 0xC7) by (try reflexivity; lia).
  rewrite Ha3, Hb3, Hc4.
  pose proof (popcount_le 12 a) as Hla.
  pose proof (popcount_le 12 b) as Hlb.
  pose proof (popcount_le 12 c) as Hlc.
  rewrite <- Hpa, <- Hpb, <- Hpc in *.
  Z.to_euclidean_division_equations. lia.
Qed.

(** X16 ([bit_count], all inputs): for every [uint32_t] value [x],
    [bit_count x] is the number of 1 bits of [x], a number between 0 and
    32; the subtraction and the addition do not wrap around. *)
Theorem bit_count_uint32 (x : Z) :
  0 <= x < 2 ^ 32 ->
  bit_count x = popcount 32 x /\ 0 <= bit_count x <= 32.
Proof.
  intros Hx. rewrite bit_count_chunks by exact Hx.
  split; [reflexivity|]. pose proof (popcount_le 32 x). lia.
Qed.

Lemma bit_count_uint32_witness :
  bit_count 0xFFFFFFFF = popcount 32 0xFFFFFFFF
  /\ 0 <= bit_count 0xFFFFFFFF <= 32.
Proof. apply (bit_count_uint32 0xFFFFFFFF). lia. Defined.

(** ** The whole signature: range, injectivity and Hamming distance *)

(** Sign bit [i] differs between the two sign sequences. *)
Definition differ (hash_code hash_code_q : list bool) (i : nat) : bool :=
  xorb (nth i hash_code false) (nth i hash_code_q false).

(** The number of differing sign bits among [len] positions from [start]. *)
Definition hamming (start len : nat) (hash_code hash_code_q : list bool) : Z :=
  Z.of_nat (length (filter (differ hash_code hash_code_q) (seq start len))).

(** The score that [kmc] inserts for a point:
    [(float) (total_bits - match)] with [total_bits = 64 * m_]; [match] is a
    [uint32_t], so that the difference is taken in unsigned arithmetic. *)
Definition kmc_score (K_ : Z) (key key_q : list Z) : Z :=
  float_of_int (u32 (64 * m_ K_ - u32 (kmc_match key key_q))).

Lemma word_size_nat_le (K_ m i : Z) : (Z.to_nat (word_size K_ m i) <= 64)%nat.
Proof.
  unfold word_size.
  destruct ((i =? m - 1) && negb (Z.rem K_ 64 =? 0)); [|lia].
  pose proof (Z.rem_bound_abs K_ 64 ltac:(lia)) as Hr. lia.
Qed.

Lemma pack_word_range (hash_code : list bool) (shift : Z) (size : nat) :
  (size <= 64)%nat -> 0 <= pack_word hash_code shift size < 2 ^ 64.
Proof.
  intros Hsize.
  assert (Hmod : pack_word hash_code shift size
                 = pack_word hash_code shift size mod 2 ^ 64).
  { apply Z.bits_inj'. intros p Hp.
    destruct (Z.lt_ge_cases p 64) as [Hlt|Hge].
    - now rewrite Z.mod_pow2_bits_low by lia.
    - rewrite Z.mod_pow2_bits_high by lia.
      rewrite testbit_pack_word by exact Hsize.
      replace (p <=? 63) with false by (symmetry; apply Z.leb_gt; lia).
      now rewrite andb_false_r. }
  rewrite Hmod. apply Z.mod_pos_bound. lia.
Qed.

Lemma compress_loop_range (K_ m : Z) (hash_code : list bool) (todo : nat) :
  forall i shift,
    Forall (fun w => 0 <= w < 2 ^ 64) (compress_loop K_ m hash_code todo i shift).
Proof.
  induction todo as [|todo IH]; intros i shift; cbn [compress_loop];
    constructor; [|apply IH].
  apply pack_word_range, word_size_nat_le.
Qed.

Lemma count_seq_offset (F : nat -> bool) (s n : nat) :
  length (filter F (seq s n))
  = length (filter (fun j => F (j + s)%nat) (seq 0 n)).
Proof.
  revert s. induction n as [|n IH]; intros s; [reflexivity|].
  rewrite !seq_S, !filter_app, !length_app, IH. cbn [filter Nat.add].
  rewrite (Nat.add_comm n s). now destruct (F (s + n)%nat).
Qed.

(** One table lookup on the XOR of two packed words counts the differing
    sign bits of the word. *)
Lemma table_lookup_word (hash_code hash_code_q : list bool) (s size : nat) :
  (size <= 64)%nat ->
  table_lookup (Z.lxor (pack_word hash_code (Z.of_nat s) size)
                       (pack_word hash_code_q (Z.of_nat s) size))
  = hamming s size hash_code hash_code_q.
Proof.
  intros Hsize. rewrite table_lookup_popcount64. unfold popcount, hamming.
  f_equal. rewrite (count_seq_offset (differ hash_code hash_code_q) s size).
  set (D := fun j : nat => differ hash_code hash_code_q (j + s)).
  set (F := fun j : nat => (j <? size)%nat && D j).
  transitivity (length (filter (fun i => F (63 - i)%nat) (seq 0 64))).
  { f_equal. apply filter_ext_in. intros i Hi. apply in_seq in Hi.
    rewrite Z.lxor_spec, !testbit_pack_word by exact Hsize.
    unfold F, D, differ.
    replace (Z.to_nat (63 - Z.of_nat i + Z.of_nat s)) with (63 - i + s)%nat
      by lia.
    replace (Z.of_nat i <=? 63) with true by (symmetry; apply Z.leb_le; lia).
    replace (63 - Z.of_nat size <? Z.of_nat i) with (63 - i <? size)%nat.
    - now destruct (63 - i <? size)%nat, (nth _ hash_code false),
                   (nth _ hash_code_q false).
    - destruct (Nat.ltb_spec (63 - i) size),
               (Z.ltb_spec (63 - Z.of_nat size) (Z.of_nat i));
        try reflexivity; lia. }
  rewrite count_mirror64.
  replace 64%nat with (size + (64 - size))%nat at 1 by lia.
  rewrite seq_app, filter_app, length_app.
  rewrite (filter_none F (seq _ (64 - _))).
  - cbn [length]. rewrite Nat.add_0_r. f_equal.
    apply filter_ext_in. intros j Hj. apply in_seq in Hj. unfold F.
    replace (j <? size)%nat with true by (symmetry; apply Nat.ltb_lt; lia).
    reflexivity.
  - intros j Hj. apply in_seq in Hj. unfold F.
    replace (j <? size)%nat with false by (symmetry; apply Nat.ltb_ge; lia).
    reflexivity.
Qed.

Lemma hamming_app (s a b : nat) (h q : list bool) :
  hamming s (a + b) h q = hamming s a h q + hamming (s + a) b h q.
Proof.
  unfold hamming. rewrite seq_app, filter_app, length_app. lia.
Qed.

Lemma hamming_range (s n : nat) (h q : list bool) :
  0 <= hamming s n h q <= Z.of_nat n.
Proof.
  unfold hamming.
  pose proof (filter_length_le (differ h q) (seq s n)) as Hle.
  rewrite length_seq in Hle. lia.
Qed.

Lemma word_size_full (K_ m i : Z) : i <> m - 1 -> word_size K_ m i = 64.
Proof.
  intros Hi. unfold word_size.
  replace (i =? m - 1) with false by (symmetry; apply Z.eqb_neq; lia).
  reflexivity.
Qed.

(** The words before the final one hold 64 sign bits each. *)
Lemma kmc_match_full_words (K_ m : Z) (h q : list bool) (todo : nat) :
  forall i s,
    i + Z.of_nat todo <= m - 1 ->
    kmc_match (compress_loop K_ m h todo i (Z.of_nat s))
              (compress_loop K_ m q todo i (Z.of_nat s))
    = hamming s (64 * todo) h q.
Proof.
  induction todo as [|todo IH]; intros i s Hm; [reflexivity|].
  cbn [compress_loop kmc_match].
  rewrite word_size_full by lia.
  change (Z.to_nat 64) with 64%nat.
  rewrite table_lookup_word by lia.
  replace (Z.of_nat s + 64) with (Z.of_nat (s + 64)) by lia.
  rewrite IH by lia.
  replace (64 * S todo)%nat with (64 + 64 * todo)%nat by lia.
  now rewrite hamming_app.
Qed.

Lemma compress_loop_snoc (K_ m : Z) (h : list bool) (todo : nat) :
  forall i shift,
    i + Z.of_nat todo <= m - 1 ->
    compress_loop K_ m h (S todo) i shift
    = compress_loop K_ m h todo i shift
      ++ [pack_word h (shift + 64 * Z.of_nat todo)
                    (Z.to_nat (word_size K_ m (i + Z.of_nat todo)))].
Proof.
  induction todo as [|todo IH]; intros i shift Hm.
  - cbn [compress_loop app]. now rewrite Z.mul_0_r, !Z.add_0_r.
  - change (compress_loop K_ m h (S (S todo)) i shift)
      with (pack_word h shift (Z.to_nat (word_size K_ m i))
              :: compress_loop K_ m h (S todo) (i + 1) (shift + word_size K_ m i)).
    rewrite IH by lia. cbn [compress_loop app].
    rewrite (word_size_full K_ m i) by lia.
    replace (shift + 64 + 64 * Z.of_nat todo)
      with (shift + 64 * Z.of_nat (S todo)) by lia.
    replace (i + 1 + Z.of_nat todo) with (i + Z.of_nat (S todo)) by lia.
    reflexivity.
Qed.

(** The sizes of the words add up to [K_] where [m_] is [ceil(K_ / 64)]. *)
Lemma word_sizes_total (K_ : Z) :
  0 < K_ ->
  64 * (ceil_div K_ 64 - 1) + word_size K_ (ceil_div K_ 64) (ceil_div K_ 64 - 1)
  = K_.
Proof.
  intros HK. unfold word_size, ceil_div. rewrite Z.eqb_refl. cbn [andb].
  rewrite Z.rem_mod_nonneg by lia.
  destruct (Z.eqb_spec (K_ mod 64) 0) as [H0|H0]; cbn [negb];
    Z.to_euclidean_division_equations; lia.
Qed.

(** The mismatch count of two packed signatures is the Hamming distance of
    the two sign sequences. *)
Lemma kmc_match_compress (K_ : Z) (h q : list bool) :
  0 < K_ <= 2 ^ 24 ->
  kmc_match (compress_hash_code K_ h) (compress_hash_code K_ q)
  = hamming 0 (Z.to_nat K_) h q.
Proof.
  intros HK. unfold compress_hash_code. cbv zeta.
  pose proof (m_pos K_ ltac:(lia)) as Hm.
  pose proof (word_sizes_total K_ ltac:(lia)) as Htot.
  rewrite <- (m_exact K_) in Htot by lia.
  pose proof (word_size_range K_ (m_ K_) (m_ K_ - 1) ltac:(lia)) as Hs.
  set (m := m_ K_) in *.
  replace (Z.to_nat m) with (S (Z.to_nat (m - 1))) by lia.
  rewrite !compress_loop_snoc by lia.
  rewrite kmc_match_final_word by now rewrite !length_compress_loop.
  pose proof (kmc_match_full_words K_ m h q (Z.to_nat (m - 1)) 0 0%nat
                ltac:(lia)) as Hfull.
  change (Z.of_nat 0) with 0 in Hfull. rewrite Hfull.
  rewrite !Z.add_0_l, Z2Nat.id by lia.
  replace (64 * (m - 1)) with (Z.of_nat (64 * Z.to_nat (m - 1))) by lia.
  rewrite table_lookup_word by lia.
  replace (Z.to_nat K_)
    with (64 * Z.to_nat (m - 1) + Z.to_nat (word_size K_ m (m - 1)))%nat by lia.
  now rewrite hamming_app.
Qed.

(** Sign bit [i] is read back from bit [63 - i mod 64] of word [i / 64]. *)
Lemma sign_bit_readback (K_ : Z) (h : list bool) (i : Z) :
  0 < K_ <= 2 ^ 24 -> 0 <= i < K_ ->
  Z.testbit (nth (Z.to_nat (i / 64)) (compress_hash_code K_ h) 0)
            (63 - i mod 64)
  = nth (Z.to_nat i) h false.
Proof.
  intros HK Hi.
  pose proof (word_sizes_total K_ ltac:(lia)) as Htot.
  rewrite <- (m_exact K_) in Htot by lia.
  pose proof (m_pos K_ ltac:(lia)) as Hm.
  pose proof (word_size_range K_ (m_ K_) (m_ K_ - 1) ltac:(lia)) as Hs.
  pose proof (Z.mod_pos_bound i 64 ltac:(lia)) as Hj.
  pose proof (Z.div_mod i 64 ltac:(lia)) as Hdm.
  assert (Hw : 0 <= i / 64 < m_ K_) by (split; [apply Z.div_pos; lia|nia]).
  rewrite compress_hash_code_layout by lia.
  replace (64 * (i / 64) + (63 - (63 - i mod 64))) with i by lia.
  assert (Hsize : i mod 64 < word_size K_ (m_ K_) (i / 64)).
  { destruct (Z.eq_dec (i / 64) (m_ K_ - 1)) as [He|Hne].
    - rewrite He. nia.
    - rewrite word_size_full by exact Hne. lia. }
  destruct (Z.ltb_spec (63 - word_size K_ (m_ K_) (i / 64)) (63 - i mod 64)),
           (Z.leb_spec (63 - i mod 64) 63); cbn [andb]; try reflexivity; lia.
Qed.

Lemma compress_hash_code_inj_nth (K_ : Z) (h q : list bool) :
  0 < K_ <= 2 ^ 24 ->
  compress_hash_code K_ h = compress_hash_code K_ q ->
  forall i, (i < Z.to_nat K_)%nat -> nth i h false = nth i q false.
Proof.
  intros HK Heq i Hi.
  rewrite <- (Nat2Z.id i).
  rewrite <- (sign_bit_readback K_ h (Z.of_nat i)) by lia.
  rewrite <- (sign_bit_readback K_ q (Z.of_nat i)) by lia.
  now rewrite Heq.
Qed.

(** X1 ([compress_hash_code], range): every word of a packed signature is
    a 64-bit value, whatever [K_] and the sign sequence are: no shift leaves
    the word. *)
Theorem compress_hash_code_words_64bit (K_ : Z) (hash_code : list bool) :
  Forall (fun w => 0 <= w < 2 ^ 64) (compress_hash_code K_ hash_code).
Proof. apply compress_loop_range. Qed.

(** X2 ([compress_hash_code], injectivity): for [0 < K_ <= 2^24] two sign
    sequences of [K_] bits with the same packed signature are equal: the
    packing loses no sign bit. *)
Theorem compress_hash_code_injective (K_ : Z) (hash_code hash_code_q : list bool) :
  0 < K_ <= 2 ^ 24 ->
  length hash_code = Z.to_nat K_ -> length hash_code_q = Z.to_nat K_ ->
  compress_hash_code K_ hash_code = compress_hash_code K_ hash_code_q ->
  hash_code = hash_code_q.
Proof.
  intros HK Hh Hq Heq.
  apply (nth_ext _ _ false false); [congruence|].
  intros i Hi. apply (compress_hash_code_inj_nth K_); [exact HK|exact Heq|lia].
Qed.

Lemma compress_hash_code_injective_witness :
  repeat true 70 = repeat true 64 ++ [true; true; true; true; true; true].
Proof.
  apply (compress_hash_code_injective 70 (repeat true 70)
           (repeat true 64 ++ [true; true; true; true; true; true]));
    [lia | reflexivity | reflexivity | vm_compute; reflexivity].
Defined.

(** X3 ([kmc], [table_lookup], [compress_hash_code]): for
    [0 < K_ <= 2^24] the mismatch count that [kmc] accumulates over the words
    of two packed signatures is the Hamming distance of the two sign
    sequences (the padding of the final word never counts); it is symmetric,
    and 0 for a signature against itself. *)
Theorem kmc_match_hamming (K_ : Z) (hash_code hash_code_q : list bool) :
  0 < K_ <= 2 ^ 24 ->
  kmc_match (compress_hash_code K_ hash_code) (compress_hash_code K_ hash_code_q)
  = hamming 0 (Z.to_nat K_) hash_code hash_code_q
  /\ kmc_match (compress_hash_code K_ hash_code_q) (compress_hash_code K_ hash_code)
     = kmc_match (compress_hash_code K_ hash_code) (compress_hash_code K_ hash_code_q)
  /\ kmc_match (compress_hash_code K_ hash_code) (compress_hash_code K_ hash_code) = 0.
Proof.
  intros HK. rewrite !kmc_match_compress by exact HK. split; [reflexivity|].
  split.
  - unfold hamming. do 2 f_equal. apply filter_ext. intros i. apply xorb_comm.
  - unfold hamming. rewrite filter_none; [reflexivity|].
    intros i _. apply xorb_nilpotent.
Qed.

Lemma ceil_div_64_bounds (K_ : Z) :
  0 < K_ <= 2 ^ 24 -> K_ <= 64 * ceil_div K_ 64 <= 2 ^ 24.
Proof.
  intros HK. unfold ceil_div. change (2 ^ 24) with 16777216 in *.
  Z.to_euclidean_division_equations. lia.
Qed.

Lemma kmc_score_compress (K_ : Z) (h q : list bool) :
  0 < K_ <= 2 ^ 24 ->
  kmc_score K_ (compress_hash_code K_ h) (compress_hash_code K_ q)
  = 64 * ceil_div K_ 64 - hamming 0 (Z.to_nat K_) h q.
Proof.
  intros HK. unfold kmc_score.
  rewrite kmc_match_compress, m_exact by lia.
  pose proof (hamming_range 0 (Z.to_nat K_) h q) as Hh.
  pose proof (ceil_div_64_bounds K_ HK) as Hc.
  change (2 ^ 24) with 16777216 in *.
  unfold u32. rewrite (Z.mod_small (hamming _ _ _ _)) by lia.
  rewrite Z.mod_small by lia.
  apply float_of_int_exact. change (2 ^ 24) with 16777216. lia.
Qed.

Lemma kmc_match_hamming_witness :
  kmc_match (compress_hash_code 70 (repeat true 70))
            (compress_hash_code 70 (repeat false 70))
  = hamming 0 (Z.to_nat 70) (repeat true 70) (repeat false 70)
  /\ kmc_match (compress_hash_code 70 (repeat false 70))
               (compress_hash_code 70 (repeat true 70))
     = kmc_match (compress_hash_code 70 (repeat true 70))
                 (compress_hash_code 70 (repeat false 70))
  /\ kmc_match (compress_hash_code 70 (repeat true 70))
               (compress_hash_code 70 (repeat true 70)) = 0.
Proof.
  apply (kmc_match_hamming 70 (repeat true 70) (repeat false 70)). lia.
Defined.

End SRP_LSH.

(* ====================================================================== *)
(** * Real-number helpers shared by the two ALSH units *)
(* ====================================================================== *)

Module RealVec.

Local Open Scope R_scope.

(** [map] of a fallible function: the result is defined when every element
    is. *)
Fixpoint mapM {A B : Type} (f : A -> option B) (l : list A) : option (list B) :=
  match l with
  | [] => Some []
  | a :: l' =>
      match f a, mapM f l' with
      | Some b, Some bs => Some (b :: bs)
      | _, _ => None
      end
  end.

(** Exact inner product of two coordinate lists. *)
Fixpoint dot (p q : list R) : R :=
  match p, q with
  | x :: p', y :: q' => x * y + dot p' q'
  | _, _ => 0
  end.

Lemma mapM_total {A B : Type} (f : A -> option B) (g : A -> B) (l : list A) :
  (forall a, In a l -> f a = Some (g a)) -> mapM f l = Some (map g l).
Proof.
  induction l as [|a l IH]; intros Hf; [reflexivity|].
  cbn [mapM map]. rewrite (Hf a) by now left.
  rewrite IH; [reflexivity|]. intros b Hb. apply Hf. now right.
Qed.

Lemma mapM_Some_inv {A B : Type} (f : A -> option B) (l : list A) (bs : list B) :
  mapM f l = Some bs -> forall a, In a l -> exists b, f a = Some b.
Proof.
  revert bs. induction l as [|a l IH]; intros bs Hm x Hx; [destruct Hx|].
  cbn [mapM] in Hm.
  destruct (f a) as [b|] eqn:Hfa; [|discriminate].
  destruct (mapM f l) as [bs'|] eqn:Hl; [|discriminate].
  destruct Hx as [<-|Hx]; [now exists b | exact (IH bs' eq_refl x Hx)].
Qed.

(** Reading a vector coordinate by coordinate is the vector itself. *)
Lemma map_nth_seq {A B : Type} (g : A -> B) (d : A) (p : list A) :
  map (fun j => g (nth j p d)) (seq 0 (length p)) = map g p.
Proof.
  induction p as [|a p IH]; [reflexivity|].
  cbn [length seq map nth]. f_equal.
  rewrite <- seq_shift, map_map. exact IH.
Qed.

Lemma map_seq_offset {B : Type} (g : nat -> B) (n s : nat) :
  map g (seq s n) = map (fun k => g (s + k)%nat) (seq 0 n).
Proof.
  revert g s. induction n as [|n IH]; intros g s; [reflexivity|].
  cbn [seq map]. rewrite Nat.add_0_r. f_equal.
  rewrite (IH g (S s)), (IH (fun k => g (s + k)%nat) 1%nat).
  apply map_ext. intros k. f_equal. lia.
Qed.

Lemma dot_self_nonneg (p : list R) : 0 <= dot p p.
Proof.
  induction p as [|x p IH]; cbn [dot]; [lra|]. nra.
Qed.

(** Squared Euclidean distance of two coordinate lists. *)
Fixpoint dist_sqr (p q : list R) : R :=
  match p, q with
  | x :: p', y :: q' => (x - y) * (x - y) + dist_sqr p' q'
  | _, _ => 0
  end.

Lemma dist_sqr_dot (p q : list R) :
  length p = length q ->
  dist_sqr p q = dot p p - 2 * dot p q + dot q q.
Proof.
  revert q. induction p as [|x p IH]; intros [|y q] Hlen;
    cbn in Hlen; try discriminate; cbn [dist_sqr dot]; [lra|].
  rewrite IH by lia. lra.
Qed.

Lemma dist_sqr_app (p1 q1 p2 q2 : list R) :
  length p1 = length q1 ->
  dist_sqr (p1 ++ p2) (q1 ++ q2) = dist_sqr p1 q1 + dist_sqr p2 q2.
Proof.
  revert q1. induction p1 as [|x p1 IH]; intros [|y q1] Hlen;
    cbn in Hlen; try discriminate; cbn [app dist_sqr]; [lra|].
  rewrite IH by lia. lra.
Qed.

Lemma dot_scale_l (s : R) (p q : list R) :
  dot (map (fun x => s * x) p) q = s * dot p q.
Proof.
  revert q. induction p as [|x p IH]; intros [|y q]; cbn [map dot]; try lra.
  rewrite IH. lra.
Qed.

Lemma dot_scale_r (s : R) (p q : list R) :
  dot p (map (fun x => s * x) q) = s * dot p q.
Proof.
  revert q. induction p as [|x p IH]; intros [|y q]; cbn [map dot]; try lra.
  rewrite IH. lra.
Qed.

End RealVec.

(* ====================================================================== *)
(** * L2_ALSH (src/l2_alsh.cc) *)
(* ====================================================================== *)

Module L2_ALSH.

Import RealVec.
Local Open Scope R_scope.

(** [(int) pow(2.0f, k)]: a power of two is exact in [float]; the conversion
    to [int] truncates and is defined only below 2^31, i.e. for [k <= 30]
    (for negative [k] the truncation gives 0, as [2 ^ k] does in [Z]). *)
Definition int_of_pow2 (k : Z) : option Z :=
  if (k <=? 30)%Z then Some (2 ^ k)%Z else None.

Section Transform.

(** [MINREAL] of def.h, the most negative [float]. *)
Variable MINREAL : R.

Variables n_pts_ dim_ m_ : nat.
Variable U_ : R.
Variable data_ : list (list R).
Variable norm_d_ : list R.

(** First loop of [bulkload]: the maximum norm, starting from [MINREAL]. *)
Definition max_norm : R :=
  fold_left (fun M x => if Rgt_dec x M then x else M)
            (firstn n_pts_ norm_d_) MINREAL.

(** Coordinate [j] of the augmented vector of a point with coordinates [p]
    and scaled norm [norm_i]. *)
Definition l2_alsh_coord (scale : R) (p : list R) (norm_i : R) (j : nat)
  : option R :=
  if (j <? dim_)%nat then Some (nth j p 0 * scale)
  else
    match int_of_pow2 (Z.of_nat j - Z.of_nat dim_ + 1) with
    | Some exponent => Some (powerRZ norm_i exponent)
    | None => None
    end.

(** Second loop of [bulkload]: the augmented data, [None] when a conversion
    to [int] is undefined. *)
Definition bulkload : option (R * list (list R)) :=
  let M := max_norm in
  let scale := U_ / M in
  match
    mapM (fun i =>
            let norm_i := nth i norm_d_ 0 * scale in
            mapM (l2_alsh_coord scale (nth i data_ []) norm_i)
                 (seq 0 (dim_ + m_)))
         (seq 0 n_pts_)
  with
  | Some l2_alsh_data => Some (M, l2_alsh_data)
  | None => None
  end.

(** The augmented query built by [kmip]. *)
Definition l2_alsh_query (query : list R) (normq : R) : list R :=
  map (fun i => if (i <? dim_)%nat then nth i query 0 / normq else 0.5)
      (seq 0 (dim_ + m_)).


(** ** Lemmas *)

Lemma fold_max_spec (l : list R) :
  forall a0,
    let r := fold_left (fun M x => if Rgt_dec x M then x else M) l a0 in
    a0 <= r /\ Forall (fun x => x <= r) l /\ (r = a0 \/ In r l).
Proof.
  induction l as [|x l IH]; intros a0; cbn [fold_left].
  - split; [lra|]. split; [constructor | now left].
  - cbv zeta in IH.
    destruct (Rgt_dec x a0) as [Hgt|Hle].
    + destruct (IH x) as (Hge & Hall & Hin).
      split; [lra|]. split.
      * constructor; [exact Hge | exact Hall].
      * right. destruct Hin as [->|Hin]; [now left | now right].
    + destruct (IH a0) as (Hge & Hall & Hin).
      split; [exact Hge|]. split.
      * constructor; [lra | exact Hall].
      * destruct Hin as [->|Hin]; [now left | right; now right].
Qed.

Lemma max_norm_spec :
  MINREAL < 0 -> (0 < n_pts_)%nat -> length norm_d_ = n_pts_ ->
  Forall (fun x => 0 <= x) norm_d_ ->
  In max_norm norm_d_ /\ Forall (fun x => x <= max_norm) norm_d_.
Proof.
  intros Hmin Hn Hlen Hpos. unfold max_norm.
  rewrite <- Hlen, firstn_all.
  destruct (fold_max_spec norm_d_ MINREAL) as (Hge & Hall & Hin).
  split; [|exact Hall].
  destruct Hin as [Heq|Hin]; [|exact Hin].
  destruct norm_d_ as [|x l]; [cbn in Hlen; lia|].
  inversion Hpos as [|? ? Hx _]; subst.
  inversion Hall as [|? ? Hxr _]; subst.
  rewrite Heq in Hxr. lra.
Qed.

Lemma int_of_pow2_succ (k : nat) :
  (k < 30)%nat ->
  int_of_pow2 (Z.of_nat k + 1) = Some (Z.of_nat (2 ^ (k + 1))).
Proof.
  intros Hk. unfold int_of_pow2.
  replace (Z.of_nat k + 1 <=? 30)%Z with true by (symmetry; apply Z.leb_le; lia).
  f_equal. rewrite Nat2Z.inj_pow. f_equal. lia.
Qed.

(** The coordinates of one augmented data vector. *)
Lemma l2_alsh_row (scale norm_i : R) (p : list R) :
  length p = dim_ -> (m_ <= 30)%nat ->
  mapM (l2_alsh_coord scale p norm_i) (seq 0 (dim_ + m_))
  = Some (map (fun x => x * scale) p
          ++ map (fun j => norm_i ^ (2 ^ (j + 1))) (seq 0 m_)).
Proof.
  intros Hp Hm.
  rewrite (mapM_total _
             (fun j => if (j <? dim_)%nat then nth j p 0 * scale
                       else norm_i ^ (2 ^ (j - dim_ + 1)))).
  - f_equal. rewrite seq_app, map_app. cbn [Nat.add]. f_equal.
    + transitivity (map (fun j => nth j p 0 * scale) (seq 0 dim_)).
      * apply map_ext_in. intros j Hj. apply in_seq in Hj.
        replace (j <? dim_)%nat with true by (symmetry; apply Nat.ltb_lt; lia).
        reflexivity.
      * rewrite <- Hp. apply (map_nth_seq (fun x => x * scale)).
    + rewrite map_seq_offset. apply map_ext. intros k.
      replace (dim_ + k <? dim_)%nat with false
        by (symmetry; apply Nat.ltb_ge; lia).
      do 2 f_equal. lia.
  - intros j Hj. apply in_seq in Hj. unfold l2_alsh_coord.
    destruct (Nat.ltb_spec j dim_) as [Hlt|Hge]; [reflexivity|].
    replace (Z.of_nat j - Z.of_nat dim_ + 1)%Z
      with (Z.of_nat (j - dim_) + 1)%Z by lia.
    rewrite int_of_pow2_succ by lia.
    now rewrite <- pow_powerRZ.
Qed.

Lemma l2_alsh_query_spec (query : list R) (normq : R) :
  length query = dim_ ->
  l2_alsh_query query normq
  = map (fun x => x / normq) query ++ repeat 0.5 m_.
Proof.
  intros Hq. unfold l2_alsh_query.
  rewrite seq_app, map_app. cbn [Nat.add]. f_equal.
  - transitivity (map (fun j => nth j query 0 / normq) (seq 0 dim_)).
    + apply map_ext_in. intros j Hj. apply in_seq in Hj.
      replace (j <? dim_)%nat with true by (symmetry; apply Nat.ltb_lt; lia).
      reflexivity.
    + rewrite <- Hq. apply (map_nth_seq (fun x => x / normq)).
  - rewrite map_seq_offset.
    rewrite (map_ext _ (fun _ => 0.5)).
    + generalize 0%nat. induction m_ as [|m IH]; intros s; [reflexivity|].
      cbn [seq map repeat]. f_equal. apply IH.
    + intros k.
      replace (dim_ + k <? dim_)%nat with false
        by (symmetry; apply Nat.ltb_ge; lia).
      reflexivity.
Qed.

(** The build is defined only if every conversion [(int) pow(2.0f, j + 1)]
    is: a dataset with an object admits at most 30 extra coordinates. *)
Lemma bulkload_defined_bound (M : R) (l2_alsh_data : list (list R)) :
  (0 < n_pts_)%nat -> bulkload = Some (M, l2_alsh_data) -> (m_ <= 30)%nat.
Proof.
  intros Hn Hload. unfold bulkload in Hload. cbv zeta in Hload.
  match type of Hload with
  | match mapM ?f ?l with _ => _ end = _ =>
      destruct (mapM f l) as [rows|] eqn:Hrows; [|discriminate]
  end.
  destruct (mapM_Some_inv _ _ _ Hrows 0%nat) as [row Hrow];
    [apply in_seq; lia|].
  cbv beta zeta in Hrow.
  destruct (Nat.le_gt_cases m_ 30) as [Hle|Hgt]; [exact Hle|exfalso].
  destruct (mapM_Some_inv _ _ _ Hrow (dim_ + 30)%nat) as [x Hx];
    [apply in_seq; lia|].
  unfold l2_alsh_coord in Hx.
  replace (dim_ + 30 <? dim_)%nat with false in Hx
    by (symmetry; apply Nat.ltb_ge; lia).
  replace (Z.of_nat (dim_ + 30) - Z.of_nat dim_ + 1)%Z with 31%Z in Hx by lia.
  discriminate.
Qed.


(** ** Further properties of the transformation *)

(** The rows that [bulkload] builds, and the maximum norm it scales by. *)
Lemma bulkload_rows (M : R) (l2_alsh_data : list (list R)) :
  MINREAL < 0 ->
  (0 < n_pts_)%nat -> length data_ = n_pts_ -> length norm_d_ = n_pts_ ->
  Forall (fun p => length p = dim_) data_ ->
  Forall (fun x => 0 < x) norm_d_ ->
  bulkload = Some (M, l2_alsh_data) ->
  0 < M /\ Forall (fun x => x <= M) norm_d_
  /\ forall i, (i < n_pts_)%nat ->
       nth i l2_alsh_data []
       = map (fun x => x * (U_ / M)) (nth i data_ [])
         ++ map (fun j => (U_ / M * nth i norm_d_ 0) ^ (2 ^ (j + 1)))
                (seq 0 m_).
Proof.
  intros Hmin Hn Hdata Hnorm Hdim Hpos HD.
  assert (Hnonneg : Forall (fun x => 0 <= x) norm_d_)
    by (eapply Forall_impl; [|exact Hpos]; cbv beta; intros x Hx; lra).
  destruct (max_norm_spec Hmin Hn Hnorm Hnonneg) as [HMin HMax].
  pose proof (bulkload_defined_bound M l2_alsh_data Hn HD) as Hm.
  set (row := fun i =>
                map (fun x => x * (U_ / max_norm)) (nth i data_ [])
                ++ map (fun j => (U_ / max_norm * nth i norm_d_ 0) ^ (2 ^ (j + 1)))
                       (seq 0 m_)).
  assert (Hload : bulkload = Some (max_norm, map row (seq 0 n_pts_))).
  { unfold bulkload. cbv zeta.
    rewrite (mapM_total _ row); [reflexivity|].
    intros i Hi. apply in_seq in Hi.
    rewrite l2_alsh_row; [|now apply (proj1 (Forall_forall _ _) Hdim), nth_In; lia
                          |exact Hm].
    unfold row. do 2 f_equal. apply map_ext. intros j.
    f_equal. apply Rmult_comm. }
  rewrite Hload in HD. inversion HD; subst M l2_alsh_data. clear HD.
  split; [exact (proj1 (Forall_forall _ _) Hpos _ HMin)|].
  split; [exact HMax|].
  intros i Hi.
  rewrite (nth_indep _ [] (row 0%nat)) by (now rewrite length_map, length_seq).
  rewrite map_nth, seq_nth by exact Hi. reflexivity.
Qed.

(** The squared distances of the extra coordinates to 1/2 telescope. *)
Lemma extra_coordinates_telescope (t : R) (m : nat) :
  forall s,
    dist_sqr (map (fun j => t ^ (2 ^ (j + 1))) (seq s m)) (repeat 0.5 m)
    = t ^ (2 ^ (s + m + 1)) - t ^ (2 ^ (s + 1)) + INR m / 4.
Proof.
  induction m as [|m IH]; intros s.
  - cbn [seq map repeat dist_sqr INR]. rewrite Nat.add_0_r. lra.
  - cbn [seq map repeat dist_sqr]. rewrite IH, S_INR.
    replace (S s + m + 1)%nat with (s + S m + 1)%nat by lia.
    replace (2 ^ (S s + 1))%nat with (2 ^ (s + 1) * 2)%nat
      by (rewrite (Nat.add_comm (S s) 1), (Nat.add_comm s 1);
          cbn [Nat.add Nat.pow]; lia).
    rewrite pow_mult. set (a := t ^ (2 ^ (s + 1))).
    cbn [pow]. lra.
Qed.

(** X5 ([L2_ALSH::bulkload] and [kmip], reduction): the squared distance between the augmented
    vector of data object [i] and the augmented query is
    [1 + m_ / 4 - 2 * (U_ / M) * ip / normq + (U_ / M * norm) ^ (2 ^ (m_ + 1))],
    [ip] being the inner product of the object and the query: the extra
    coordinates telescope, and the distance decreases as [ip] grows, up to
    the last term. *)
Theorem l2_alsh_distance (M : R) (l2_alsh_data : list (list R))
        (query : list R) (normq : R) (i : nat) :
  MINREAL < 0 ->
  (0 < n_pts_)%nat -> length data_ = n_pts_ -> length norm_d_ = n_pts_ ->
  Forall (fun p => length p = dim_) data_ ->
  Forall (fun x => 0 < x) norm_d_ ->
  (forall i, (i < n_pts_)%nat ->
     nth i norm_d_ 0 = sqrt (dot (nth i data_ []) (nth i data_ []))) ->
  length query = dim_ -> normq = sqrt (dot query query) -> 0 < normq ->
  bulkload = Some (M, l2_alsh_data) ->
  (i < n_pts_)%nat ->
  dist_sqr (nth i l2_alsh_data []) (l2_alsh_query query normq)
  = 1 + INR m_ / 4
    - 2 * (U_ / M) * dot (nth i data_ []) query / normq
    + (U_ / M * nth i norm_d_ 0) ^ (2 ^ (m_ + 1)).
Proof.
  intros Hmin Hn Hdata Hnorm Hdim Hpos Hnorms Hq Hnq Hnq0 HD Hi.
  destruct (bulkload_rows M l2_alsh_data Hmin Hn Hdata Hnorm Hdim Hpos HD)
    as (HM & _ & Hrow).
  assert (Hlen : length (nth i data_ []) = dim_)
    by (apply (proj1 (Forall_forall _ _) Hdim), nth_In; lia).
  rewrite (Hrow i Hi), l2_alsh_query_spec by exact Hq.
  rewrite dist_sqr_app by (rewrite !length_map; congruence).
  rewrite extra_coordinates_telescope. cbn [Nat.add].
  rewrite (map_ext (fun x => x * (U_ / M)) (fun x => U_ / M * x))
    by (intros x; apply Rmult_comm).
  rewrite (map_ext (fun x => x / normq) (fun x => / normq * x))
    by (intros x; unfold Rdiv; apply Rmult_comm).
  rewrite dist_sqr_dot by (rewrite !length_map; congruence).
  rewrite !dot_scale_l, !dot_scale_r.
  assert (Hxx : dot (nth i data_ []) (nth i data_ [])
                = nth i norm_d_ 0 * nth i norm_d_ 0).
  { rewrite (Hnorms i Hi). symmetry. apply sqrt_sqrt, dot_self_nonneg. }
  assert (Hqq : dot query query = normq * normq).
  { rewrite Hnq. symmetry. apply sqrt_sqrt, dot_self_nonneg. }
  rewrite Hxx, Hqq.
  set (t := U_ / M * nth i norm_d_ 0).
  change (2 ^ 1)%nat with 2%nat.
  replace (t ^ 2) with (t * t) by (cbn [pow]; lra).
  unfold t. field. lra.
Qed.

End Transform.


(** The build on one object [3] of norm 3 with [U_ = 0.5] and two extra
    coordinates: [scale = 0.5 / 3], and the extra coordinates are the second
    and the fourth power of the scaled norm. *)
Example bulkload_example :
  bulkload (-1) 1 1 2 0.5 [[3]] [3]
  = Some (3, [[3 * (0.5 / 3);
               powerRZ (3 * (0.5 / 3)) 2;
               powerRZ (3 * (0.5 / 3)) 4]]).
Proof.
  unfold bulkload, max_norm. cbn [firstn fold_left].
  destruct (Rgt_dec 3 (-1)) as [_|Hle]; [reflexivity | lra].
Qed.

(** With 31 extra coordinates the last exponent, [2 ^ 31], does not fit an
    [int]. *)
Example int_of_pow2_31 : int_of_pow2 30 = Some (2 ^ 30)%Z /\ int_of_pow2 31 = None.
Proof. split; reflexivity. Qed.


(** ** The further properties on one object *)

Lemma sqrt_square_sum (x : R) : 0 <= x -> x = sqrt (x * x + 0).
Proof. intros Hx. rewrite Rplus_0_r. symmetry. now apply sqrt_square. Qed.

Lemma l2_alsh_distance_witness :
  dist_sqr (nth 0 [[3 * (0.5 / 3);
                    powerRZ (3 * (0.5 / 3)) 2;
                    powerRZ (3 * (0.5 / 3)) 4]] [])
           (l2_alsh_query 1 2 [4] 4)
  = 1 + INR 2 / 4
    - 2 * (0.5 / 3) * dot (nth 0 [[3]] []) [4] / 4
    + (0.5 / 3 * nth 0 [3] 0) ^ (2 ^ (2 + 1)).
Proof.
  apply (l2_alsh_distance (-1) 1 1 2 0.5 [[3]] [3] 3
           [[3 * (0.5 / 3);
             powerRZ (3 * (0.5 / 3)) 2;
             powerRZ (3 * (0.5 / 3)) 4]] [4] 4 0).
  - lra.
  - lia.
  - reflexivity.
  - reflexivity.
  - repeat constructor.
  - repeat constructor. lra.
  - intros i Hi. destruct i as [|i]; [|lia]. cbn [nth dot].
    apply sqrt_square_sum. lra.
  - reflexivity.
  - cbn [dot]. apply sqrt_square_sum. lra.
  - lra.
  - exact bulkload_example.
  - lia.
Defined.

End L2_ALSH.

(* ====================================================================== *)
(** * H2_ALSH (src/h2_alsh.cc): the blocks that [bulkload] forms *)
(* ====================================================================== *)

Module H2_ALSH.

Import RealVec.
Local Open Scope R_scope.

(** ** Collaborators declared outside src/ *)

(** [Result] of pri_queue.h: a key and the id of a data object. *)
Record Result : Type := { key_ : R; id_ : nat }.

(** The external NN index [QALSH(n, d, ratio, data)], kept as the arguments
    it is constructed from. *)
Record QALSH : Type :=
  { qalsh_n : nat; qalsh_d : nat; qalsh_ratio : R; qalsh_data : list (list R) }.

(** [struct Block] *)
Module Block.
Record t : Type :=
  { n_pts_ : nat;            (* number of data objects in the block *)
    M_ : R;                  (* maximum norm of the block *)
    index_ : list nat;       (* local position -> data object id *)
    lsh_ : option QALSH }.   (* index of the block, NULL for a linear scan *)
End Block.

(** ** Values of [float] outside the reals *)

(** In this module [float] is modelled by the real numbers: its statements
    are about the blocks that [bulkload] forms, not about the value of a
    rounded result, which is the matter of [H2_ALSH_f32] below.  The
    arithmetic of [bulkload] can leave the reals in one place, the
    computation of [b_]: a division by zero gives an infinity or a NaN, the
    square root of a negative number a NaN.  So [b_] and the threshold
    [m = M * b_] range over the reals and these special values, with the
    IEEE 754 rules for the operations involved. *)
Inductive fval : Type :=
| Fin (r : R)
| PInf
| NInf
| NaN.

(** [x / y] for real [x] and [y]; a zero [y] is the positive zero that the
    difference of two equal numbers is. *)
Definition fdiv (x y : R) : fval :=
  if Req_dec_T y 0 then
    if Rlt_dec 0 x then PInf else if Rlt_dec x 0 then NInf else NaN
  else Fin (x / y).

(** [sqrt] *)
Definition fsqrt (x : fval) : fval :=
  match x with
  | Fin r => if Rlt_dec r 0 then NaN else Fin (sqrt r)
  | PInf => PInf
  | NInf | NaN => NaN
  end.

(** [M * b] for a real [M]. *)
Definition fmul (M : R) (b : fval) : fval :=
  match b with
  | Fin r => Fin (M * r)
  | PInf => if Rlt_dec 0 M then PInf else if Rlt_dec M 0 then NInf else NaN
  | NInf => if Rlt_dec 0 M then NInf else if Rlt_dec M 0 then PInf else NaN
  | NaN => NaN
  end.

(** The test [x < m]; every comparison with a NaN is false. *)
Definition flt (x : R) (m : fval) : bool :=
  match m with
  | Fin r => if Rlt_dec x r then true else false
  | PInf => true
  | NInf | NaN => false
  end.


(** The state that [bulkload] leaves in the [H2_ALSH] object. *)
Record Index : Type :=
  { M_ : R;
    b_ : fval;
    h2_alsh_data_ : list (list R);
    num_blocks_ : nat;
    blocks_ : list Block.t }.

(** Descending order of the keys, the order that [ResultCompDesc] asks
    of [qsort]. *)
Definition descending (l : list Result) : Prop :=
  StronglySorted (fun r1 r2 => key_ r2 <= key_ r1) l.

(** ** A sort by descending key *)

(** Insertion sort, one function that meets [sorts_descending]; the claims
    are proved for every such function. *)
Fixpoint insert_desc (r : Result) (l : list Result) : list Result :=
  match l with
  | [] => [r]
  | x :: l' =>
      if Rle_dec (key_ x) (key_ r) then r :: l else x :: insert_desc r l'
  end.

Definition isort_desc (l : list Result) : list Result :=
  fold_right insert_desc [] l.

(** ** A dataset of three points *)

(** Three one-dimensional objects of norms 3, 5 and 4, ratios [c0 = 1] and
    [c = 0] (so that [b = 0]), at most two objects per block and an index
    for every block of more than one object. *)
Definition ex_data : list (list R) := [[3]; [5]; [4]].
Definition ex_norm : list R := [3; 5; 4].

Definition ex_block0 : Block.t :=
  {| Block.n_pts_ := 2; Block.M_ := 5; Block.index_ := [1; 2]%nat;
     Block.lsh_ :=
       Some {| qalsh_n := 2; qalsh_d := 2; qalsh_ratio := 1;
               qalsh_data := [[5; sqrt (5 * 5 - 5 * 5)];
                              [4; sqrt (5 * 5 - 4 * 4)]] |} |}.

Definition ex_block1 : Block.t :=
  {| Block.n_pts_ := 1; Block.M_ := 3; Block.index_ := [0]%nat;
     Block.lsh_ := None |}.

Definition ex_index : Index :=
  {| M_ := 5; b_ := Fin 0;
     h2_alsh_data_ := [[5; sqrt (5 * 5 - 5 * 5)];
                       [4; sqrt (5 * 5 - 4 * 4)];
                       [3; sqrt (3 * 3 - 3 * 3)]];
     num_blocks_ := 2;
     blocks_ := [ex_block0; ex_block1] |}.



(** ** bulkload *)

Section Reduction.

(** Constants of def.h. *)
Variables MAX_BLOCK_NUM N_THRESHOLD : nat.

(** [qsort(order, n_pts_, sizeof(Result), ResultCompDesc)]: the comparison
    function is not under src/; the sort is a parameter, constrained by the
    two hypotheses below wherever a proof needs them. *)
Variable qsort_desc : list Result -> list Result.

Definition sorts_descending : Prop :=
  forall l, Permutation (qsort_desc l) l /\ descending (qsort_desc l).

(** Fields set by the constructor. *)
Variables n_pts_ dim_ : nat.
Variables nn_ratio_ mip_ratio_ : R.
Variable data_ : list (list R).
Variable norm_d_ : list R.

(** [b_ = sqrt((pow(nn_ratio_,4.0f) - 1) / (pow(nn_ratio_,4.0f) - mip_ratio_))] *)
Definition blocking_ratio : fval :=
  fsqrt (fdiv (nn_ratio_ ^ 4 - 1) (nn_ratio_ ^ 4 - mip_ratio_)).

(** The array [order] before the sort. *)
Definition order_init : list Result :=
  map (fun i => {| key_ := nth i norm_d_ 0; id_ := i |}) (seq 0 n_pts_).

(** The lifted vector allocated for [order[i]]: the [dim_] coordinates of
    the data object, then [sqrt(M_sqr - norm_d * norm_d)]. *)
Definition lift (M_sqr : R) (r : Result) : list R :=
  let norm_d := key_ r in
  let id := id_ r in
  map (fun j => nth j (nth id data_ []) 0) (seq 0 dim_)
  ++ [sqrt (M_sqr - norm_d * norm_d)].

(** The inner [while] loop.  [rest] is [order[i .. n_pts_)] and [n] the
    number of objects already in the block; the result is the final [n], the
    lifted vectors stored at [h2_alsh_data_[i ..]] and the part of [order]
    that is left. *)
Fixpoint absorb (M_sqr : R) (m : fval) (rest : list Result) (n : nat)
  : nat * list (list R) * list Result :=
  match rest with
  | [] => (n, [], [])
  | r :: rest' =>
      if (MAX_BLOCK_NUM <=? n)%nat then (n, [], rest)
      else if flt (key_ r) m then (n, [], rest)
      else
        let '(n', lifted, rest'') := absorb M_sqr m rest' (S n) in
        (n', lift M_sqr r :: lifted, rest'')
  end.

(** One iteration of the outer loop builds one block from the objects at the
    front of [rest], where [tmp = &order[i - n]] is [rest] itself. *)
Definition make_block (rest : list Result) : Block.t * list (list R) * list Result :=
  let M := key_ (hd {| key_ := 0; id_ := 0 |} rest) in
  let m := fmul M blocking_ratio in
  let M_sqr := M * M in
  let '(n, lifted, rest') := absorb M_sqr m rest 0 in
  let index := map id_ (firstn n rest) in
  let lsh :=
    if (N_THRESHOLD <? n)%nat
    then Some {| qalsh_n := n; qalsh_d := dim_ + 1; qalsh_ratio := nn_ratio_;
                 qalsh_data := lifted |}
    else None in
  ({| Block.n_pts_ := n; Block.M_ := M; Block.index_ := index;
      Block.lsh_ := lsh |}, lifted, rest').

(** The outer [while (i < n_pts_)] loop.  It need not terminate, so it runs
    on fuel: [None] means that [fuel] iterations did not reach the end of
    [order]. *)
Fixpoint form_blocks (fuel : nat) (rest : list Result)
  : option (list Block.t * list (list R)) :=
  match rest with
  | [] => Some ([], [])
  | _ :: _ =>
      match fuel with
      | O => None
      | S fuel' =>
          let '(block, lifted, rest') := make_block rest in
          match form_blocks fuel' rest' with
          | Some (blocks, h2_alsh_data) =>
              Some (block :: blocks, lifted ++ h2_alsh_data)
          | None => None
          end
      end
  end.

Definition bulkload (fuel : nat) : option Index :=
  let order := qsort_desc order_init in
  match form_blocks fuel order with
  | Some (blocks, h2_alsh_data) =>
      Some {| M_ := key_ (hd {| key_ := 0; id_ := 0 |} order);
              b_ := blocking_ratio;
              h2_alsh_data_ := h2_alsh_data;
              num_blocks_ := length blocks;
              blocks_ := blocks |}
  | None => None
  end.

(** Position in [h2_alsh_data_] of the first object of block [k]
    ([start = i - n] in the code). *)
Fixpoint block_start (blocks : list Block.t) (k : nat) : nat :=
  match k, blocks with
  | S k', b :: blocks' => (Block.n_pts_ b + block_start blocks' k')%nat
  | _, _ => 0%nat
  end.

(** ** Statements that the claims use *)

(** C4 as the claim words it: the outer loop ends after finitely many
    iterations, and every block has at least one object. *)
Definition runs_to_completion : Prop :=
  exists fuel idx,
    bulkload fuel = Some idx
    /\ Forall (fun b => (0 < Block.n_pts_ b)%nat) (blocks_ idx).


(** The runs of [order] that the blocks are made of. *)
Inductive blocks_of : list Result -> list Block.t -> list (list R) -> Prop :=
| blocks_of_nil : blocks_of [] [] []
| blocks_of_cons r rest0 taken rest' blk blocks h2 :
    r :: rest0 = taken ++ rest' ->
    Block.n_pts_ blk = length taken ->
    Block.M_ blk = key_ r ->
    Block.index_ blk = map id_ taken ->
    Block.lsh_ blk
    = (if (N_THRESHOLD <? length taken)%nat
       then Some {| qalsh_n := length taken; qalsh_d := dim_ + 1;
                    qalsh_ratio := nn_ratio_;
                    qalsh_data := map (lift (key_ r * key_ r)) taken |}
       else None) ->
    Forall (fun x => flt (key_ x) (fmul (key_ r) blocking_ratio) = false) taken ->
    (length taken <= MAX_BLOCK_NUM)%nat ->
    blocks_of rest' blocks h2 ->
    blocks_of (r :: rest0) (blk :: blocks)
              (map (lift (key_ r * key_ r)) taken ++ h2).

(** ** Shape of the blocks *)

Lemma absorb_spec (M_sqr : R) (m : fval) (rest : list Result) :
  forall n n' lifted rest',
    absorb M_sqr m rest n = (n', lifted, rest') ->
    exists taken,
      rest = taken ++ rest'
      /\ n' = (n + length taken)%nat
      /\ lifted = map (lift M_sqr) taken
      /\ Forall (fun r => flt (key_ r) m = false) taken
      /\ (n' <= Nat.max n MAX_BLOCK_NUM)%nat.
Proof.
  induction rest as [|r rest IH]; intros n n' lifted rest' Habs;
    cbn [absorb] in Habs.
  - inversion Habs; subst. exists []. cbn. repeat split; try constructor; lia.
  - destruct (Nat.leb_spec MAX_BLOCK_NUM n) as [Hcap|Hcap].
    { inversion Habs; subst. exists []. cbn.
      repeat split; try constructor; lia. }
    destruct (flt (key_ r) m) eqn:Hge.
    { inversion Habs; subst. exists []. cbn.
      repeat split; try constructor; lia. }
    destruct (absorb M_sqr m rest (S n)) as [[n1 lifted1] rest1] eqn:Hrec.
    inversion Habs; subst.
    destruct (IH _ _ _ _ Hrec) as (taken & Hrest & Hn & Hlift & Hall & Hmax).
    exists (r :: taken). cbn [app map length].
    repeat split; try (constructor; assumption); try congruence; lia.
Qed.

(** A non-empty [rest] whose first key passes the norm test loses at least
    that object. *)
Lemma absorb_progress (M_sqr : R) (m : fval) (r : Result)
      (rest : list Result) :
  (0 < MAX_BLOCK_NUM)%nat -> flt (key_ r) m = false ->
  (0 < fst (fst (absorb M_sqr m (r :: rest) 0)))%nat.
Proof.
  intros Hcap Hge. cbn [absorb].
  destruct (Nat.leb_spec MAX_BLOCK_NUM 0) as [Hc|_]; [lia|].
  rewrite Hge.
  destruct (absorb M_sqr m rest 1) as [[n1 lifted1] rest1] eqn:Hrec.
  cbn [fst]. apply absorb_spec in Hrec as (taken & _ & Hn & _). lia.
Qed.

Lemma make_block_spec (r : Result) (rest0 : list Result)
      (blk : Block.t) (lifted : list (list R)) (rest' : list Result) :
  make_block (r :: rest0) = (blk, lifted, rest') ->
  exists taken,
    r :: rest0 = taken ++ rest'
    /\ lifted = map (lift (key_ r * key_ r)) taken
    /\ Block.n_pts_ blk = length taken
    /\ Block.M_ blk = key_ r
    /\ Block.index_ blk = map id_ taken
    /\ Block.lsh_ blk
       = (if (N_THRESHOLD <? length taken)%nat
          then Some {| qalsh_n := length taken; qalsh_d := dim_ + 1;
                       qalsh_ratio := nn_ratio_;
                       qalsh_data := map (lift (key_ r * key_ r)) taken |}
          else None)
    /\ Forall (fun x => flt (key_ x) (fmul (key_ r) blocking_ratio) = false)
              taken
    /\ (length taken <= MAX_BLOCK_NUM)%nat.
Proof.
  unfold make_block. cbn [hd]. cbv zeta.
  destruct (absorb (key_ r * key_ r) (fmul (key_ r) blocking_ratio)
                   (r :: rest0) 0)
    as [[n lifted1] rest1] eqn:Habs.
  intros Hmk. inversion Hmk; subst. clear Hmk.
  apply absorb_spec in Habs as (taken & Hrest & Hn & Hlift & Hall & Hmax).
  cbn [Nat.add] in Hn. subst n lifted.
  exists taken. cbn [Block.n_pts_ Block.M_ Block.index_ Block.lsh_].
  repeat split; try assumption; try reflexivity; try lia.
  rewrite Hrest. rewrite firstn_app, Nat.sub_diag, firstn_all.
  cbn [firstn]. now rewrite app_nil_r.
Qed.

Lemma form_blocks_shape (fuel : nat) :
  forall rest blocks h2,
    form_blocks fuel rest = Some (blocks, h2) -> blocks_of rest blocks h2.
Proof.
  induction fuel as [|fuel IH]; intros [|r rest0] blocks h2 Hfb;
    cbn [form_blocks] in Hfb; try discriminate.
  - inversion Hfb; subst. constructor.
  - inversion Hfb; subst. constructor.
  - destruct (make_block (r :: rest0)) as [[blk lifted] rest'] eqn:Hmk.
    destruct (form_blocks fuel rest') as [[blocks' h2']|] eqn:Hrec;
      [|discriminate].
    inversion Hfb; subst. clear Hfb.
    apply make_block_spec in Hmk
      as (taken & Hrest & -> & Hn & HM & Hidx & Hlsh & Hall & Hcap).
    econstructor; eauto.
Qed.

(** An iteration that absorbs nothing leaves [i] where it was, and so does
    every later one: the loop does not end. *)
Lemma form_blocks_stuck (r : Result) (rest0 : list Result) :
  snd (make_block (r :: rest0)) = r :: rest0 ->
  forall fuel, form_blocks fuel (r :: rest0) = None.
Proof.
  intros Hsame fuel. induction fuel as [|fuel IH]; [reflexivity|].
  cbn [form_blocks].
  destruct (make_block (r :: rest0)) as [[blk lifted] rest'] eqn:Hmk.
  cbn [snd] in Hsame. subst rest'. now rewrite IH.
Qed.

Lemma form_blocks_nonempty (fuel : nat) :
  forall rest blocks h2,
    form_blocks fuel rest = Some (blocks, h2) ->
    Forall (fun b => (0 < Block.n_pts_ b)%nat) blocks.
Proof.
  induction fuel as [|fuel IH]; intros [|r rest0] blocks h2 Hfb;
    cbn [form_blocks] in Hfb; try discriminate.
  - inversion Hfb; subst. constructor.
  - inversion Hfb; subst. constructor.
  - destruct (make_block (r :: rest0)) as [[blk lifted] rest'] eqn:Hmk.
    destruct (form_blocks fuel rest') as [[blocks' h2']|] eqn:Hrec;
      [|discriminate].
    inversion Hfb; subst. clear Hfb.
    constructor; [|eapply IH; eassumption].
    destruct (Nat.eq_dec (Block.n_pts_ blk) 0) as [Hz|]; [exfalso|lia].
    pose proof Hmk as Hmk'.
    apply make_block_spec in Hmk'
      as (taken & Hrest & _ & Hn & _).
    rewrite Hz in Hn. destruct taken; [|discriminate]. cbn [app] in Hrest.
    subst rest'.
    rewrite (form_blocks_stuck r rest0) in Hrec; [discriminate|].
    now rewrite Hmk.
Qed.

(** With enough fuel the loop ends when every object passes the norm test
    of the block that starts at it. *)
Lemma form_blocks_total (fuel : nat) :
  forall rest,
    (0 < MAX_BLOCK_NUM)%nat ->
    Forall (fun r => flt (key_ r) (fmul (key_ r) blocking_ratio) = false) rest ->
    (length rest <= fuel)%nat ->
    exists blocks h2, form_blocks fuel rest = Some (blocks, h2).
Proof.
  induction fuel as [|fuel IH]; intros [|r rest0] Hcap Hall Hlen;
    cbn [length] in Hlen; try lia.
  - now exists [], [].
  - now exists [], [].
  - cbn [form_blocks].
    destruct (make_block (r :: rest0)) as [[blk lifted] rest'] eqn:Hmk.
    pose proof (absorb_progress (key_ r * key_ r)
                  (fmul (key_ r) blocking_ratio)
                  r rest0 Hcap) as Hprog.
    inversion Hall as [|? ? Hr Hall0]; subst. specialize (Hprog Hr).
    assert (Hn : (0 < Block.n_pts_ blk)%nat).
    { unfold make_block in Hmk. cbn [hd] in Hmk. cbv zeta in Hmk.
      destruct (absorb (key_ r * key_ r) (fmul (key_ r) blocking_ratio)
                       (r :: rest0) 0) as [[n l1] r1].
      inversion Hmk; subst. exact Hprog. }
    apply make_block_spec in Hmk
      as (taken & Hrest & _ & Hnt & _).
    destruct (IH rest' Hcap) as (blocks & h2 & Hrec).
    + assert (Hin : Forall (fun r => flt (key_ r) (fmul (key_ r) blocking_ratio)
                                     = false)
                           (taken ++ rest'))
        by (rewrite <- Hrest; exact Hall).
      apply Forall_app in Hin. tauto.
    + apply (f_equal (@length Result)) in Hrest.
      rewrite length_app in Hrest. cbn [length] in Hrest. lia.
    + rewrite Hrec. eauto.
Qed.

(** ** The sorted array [order] *)

Lemma descending_app_r (l1 l2 : list Result) :
  descending (l1 ++ l2) -> descending l2.
Proof.
  induction l1 as [|r l1 IH]; intros Hs; [exact Hs|].
  apply IH. now inversion Hs.
Qed.

Lemma descending_head (r : Result) (l : list Result) :
  descending (r :: l) -> Forall (fun x => key_ x <= key_ r) (r :: l).
Proof.
  intros Hs. inversion Hs; subst. constructor; [lra | assumption].
Qed.

Lemma order_init_keys :
  Forall (fun r => key_ r = nth (id_ r) norm_d_ 0 /\ (id_ r < n_pts_)%nat)
         order_init.
Proof.
  unfold order_init. apply Forall_forall. intros r Hr.
  apply in_map_iff in Hr as (i & <- & Hi). apply in_seq in Hi.
  cbn [key_ id_]. split; [reflexivity | lia].
Qed.

Lemma order_init_ids : map id_ order_init = seq 0 n_pts_.
Proof.
  unfold order_init. rewrite map_map. cbn [id_]. apply map_id.
Qed.

Section Sorted.

Hypothesis Hsort : sorts_descending.

Lemma order_keys :
  Forall (fun r => key_ r = nth (id_ r) norm_d_ 0 /\ (id_ r < n_pts_)%nat)
         (qsort_desc order_init).
Proof.
  eapply Permutation_Forall; [|exact order_init_keys].
  apply Permutation_sym, Hsort.
Qed.

Lemma order_ids : Permutation (map id_ (qsort_desc order_init)) (seq 0 n_pts_).
Proof.
  rewrite <- order_init_ids. apply Permutation_map, Hsort.
Qed.

Lemma order_descending : descending (qsort_desc order_init).
Proof. apply Hsort. Qed.

End Sorted.

(** ** What the shape gives *)

Lemma blocks_of_index (rest : list Result) (blocks : list Block.t)
      (h2 : list (list R)) :
  blocks_of rest blocks h2 ->
  concat (map Block.index_ blocks) = map id_ rest.
Proof.
  induction 1 as [|r rest0 taken rest' blk blocks h2 Hrest Hn HM Hidx Hlsh
                    Hall Hcap Hrec IH]; [reflexivity|].
  rewrite Hrest, map_app, <- IH, <- Hidx. reflexivity.
Qed.

Lemma blocks_of_M_bound (rest : list Result) (blocks : list Block.t)
      (h2 : list (list R)) (bound : R) :
  blocks_of rest blocks h2 ->
  Forall (fun r => key_ r <= bound) rest ->
  Forall (fun b => Block.M_ b <= bound) blocks.
Proof.
  induction 1 as [|r rest0 taken rest' blk blocks h2 Hrest Hn HM Hidx Hlsh
                    Hall Hcap Hrec IH]; intros Hb; [constructor|].
  constructor.
  - rewrite HM. now inversion Hb.
  - apply IH. rewrite Hrest in Hb. apply Forall_app in Hb. tauto.
Qed.

Lemma blocks_of_M_sorted (rest : list Result) (blocks : list Block.t)
      (h2 : list (list R)) :
  blocks_of rest blocks h2 -> descending rest ->
  StronglySorted (fun b1 b2 => Block.M_ b2 <= Block.M_ b1) blocks.
Proof.
  induction 1 as [|r rest0 taken rest' blk blocks h2 Hrest Hn HM Hidx Hlsh
                    Hall Hcap Hrec IH]; intros Hs; [constructor|].
  pose proof (descending_head _ _ Hs) as Hhead.
  rewrite Hrest in Hs, Hhead.
  constructor.
  - apply IH. eapply descending_app_r; eassumption.
  - rewrite HM. eapply blocks_of_M_bound; [eassumption|].
    apply Forall_app in Hhead. tauto.
Qed.


(** ** The claims on [bulkload] *)

Lemma bulkload_inv (fuel : nat) (idx : Index) :
  bulkload fuel = Some idx ->
  form_blocks fuel (qsort_desc order_init)
  = Some (blocks_ idx, h2_alsh_data_ idx)
  /\ b_ idx = blocking_ratio
  /\ num_blocks_ idx = length (blocks_ idx).
Proof.
  unfold bulkload. cbv zeta.
  destruct (form_blocks fuel (qsort_desc order_init)) as [[blocks h2]|];
    [|discriminate].
  intros Hidx. inversion Hidx; subst. cbn. auto.
Qed.

Lemma blocks_of_n_pts (rest : list Result) (blocks : list Block.t)
      (h2 : list (list R)) :
  blocks_of rest blocks h2 ->
  Forall (fun b => Block.n_pts_ b = length (Block.index_ b)) blocks.
Proof.
  induction 1 as [|r rest0 taken rest' blk blocks h2 Hrest Hn HM Hidx Hlsh
                    Hall Hcap Hrec IH]; constructor; [|exact IH].
  now rewrite Hn, Hidx, length_map.
Qed.

(** C2: the index arrays of the blocks, put end to end, hold every id of
    [0 .. n_pts_ - 1] exactly once. *)
Theorem blocks_partition (fuel : nat) (idx : Index) :
  sorts_descending ->
  bulkload fuel = Some idx ->
  Permutation (concat (map Block.index_ (blocks_ idx))) (seq 0 n_pts_)
  /\ NoDup (concat (map Block.index_ (blocks_ idx)))
  /\ Forall (fun b => length (Block.index_ b) = Block.n_pts_ b) (blocks_ idx).
Proof.
  intros Hsort Hload.
  apply bulkload_inv in Hload as (Hfb & _ & _).
  apply form_blocks_shape in Hfb.
  pose proof (blocks_of_n_pts _ _ _ Hfb) as Hn.
  apply blocks_of_index in Hfb.
  assert (Hperm : Permutation (concat (map Block.index_ (blocks_ idx)))
                              (seq 0 n_pts_))
    by (rewrite Hfb; exact (order_ids Hsort)).
  split; [exact Hperm|]. split.
  - eapply Permutation_NoDup; [apply Permutation_sym, Hperm | apply seq_NoDup].
  - eapply Forall_impl; [|exact Hn]. cbv beta. intros b Hb. now symmetry.
Qed.


Lemma radicand_le_1 :
  mip_ratio_ < nn_ratio_ ^ 4 -> mip_ratio_ <= 1 ->
  (nn_ratio_ ^ 4 - 1) / (nn_ratio_ ^ 4 - mip_ratio_) <= 1.
Proof.
  intros Hlt Hc. set (c4 := nn_ratio_ ^ 4) in *.
  apply Rmult_le_reg_r with (r := c4 - mip_ratio_); [lra|].
  unfold Rdiv. rewrite Rmult_assoc, Rinv_l by lra. lra.
Qed.



(** A non-negative norm passes the test of the block that it starts when
    [c0^4 > c] and [c <= 1]: [b_] is then a NaN or a real number that is at
    most 1. *)
Lemma first_norm_passes (key : R) :
  mip_ratio_ < nn_ratio_ ^ 4 -> mip_ratio_ <= 1 -> 0 <= key ->
  flt key (fmul key blocking_ratio) = false.
Proof.
  intros Hlt Hc Hkey.
  pose proof (radicand_le_1 Hlt Hc) as Hrad.
  unfold blocking_ratio, fdiv.
  set (c4 := nn_ratio_ ^ 4) in *.
  destruct (Req_dec_T (c4 - mip_ratio_) 0) as [Hz|_]; [lra|].
  cbn [fsqrt].
  destruct (Rlt_dec ((c4 - 1) / (c4 - mip_ratio_)) 0) as [Hneg|Hpos];
    [reflexivity|].
  cbn [fmul flt].
  destruct (Rlt_dec key (key * sqrt ((c4 - 1) / (c4 - mip_ratio_))))
    as [Hbelow|_]; [|reflexivity].
  exfalso.
  assert (Hs : sqrt ((c4 - 1) / (c4 - mip_ratio_)) <= 1).
  { apply Rle_trans with (sqrt 1); [|rewrite sqrt_1; lra].
    now apply sqrt_le_1_alt. }
  nra.
Qed.

Lemma length_concat_nonempty {A : Type} (ls : list (list A)) :
  Forall (fun l => (0 < length l)%nat) ls ->
  (length ls <= length (concat ls))%nat.
Proof.
  induction 1 as [|l ls Hl _ IH]; [reflexivity|].
  cbn [concat length]. rewrite length_app. lia.
Qed.

(** C4, amended: when moreover [c <= 1] (so that [b] is at most 1) and
    [MAX_BLOCK_NUM] is positive, the outer loop ends within [n_pts_]
    iterations, and every block has at least one object. *)
Theorem bulkload_terminates (fuel : nat) :
  sorts_descending ->
  (0 < MAX_BLOCK_NUM)%nat ->
  (0 < n_pts_)%nat -> (0 < dim_)%nat ->
  length norm_d_ = n_pts_ -> Forall (fun x => 0 < x) norm_d_ ->
  mip_ratio_ < nn_ratio_ ^ 4 -> mip_ratio_ <= 1 ->
  (n_pts_ <= fuel)%nat ->
  exists idx,
    bulkload fuel = Some idx
    /\ Forall (fun b => (0 < Block.n_pts_ b)%nat) (blocks_ idx)
    /\ (num_blocks_ idx <= n_pts_)%nat.
Proof.
  intros Hsort Hcap _ _ Hlen Hpos Hratio Hc Hfuel.
  assert (Hlen_order : length (qsort_desc order_init) = n_pts_).
  { rewrite (Permutation_length (proj1 (Hsort order_init))).
    unfold order_init. now rewrite length_map, length_seq. }
  destruct (form_blocks_total fuel (qsort_desc order_init) Hcap)
    as (blocks & h2 & Hfb).
  - eapply Forall_impl; [|exact (order_keys Hsort)].
    intros r [Hkey Hid]. cbv beta.
    apply (first_norm_passes (key_ r) Hratio Hc).
    left. rewrite Hkey.
    apply (proj1 (Forall_forall _ _) Hpos), nth_In. lia.
  - lia.
  - pose proof (form_blocks_nonempty _ _ _ _ Hfb) as Hne.
    exists {| M_ := key_ (hd {| key_ := 0; id_ := 0 |} (qsort_desc order_init));
              b_ := blocking_ratio; h2_alsh_data_ := h2;
              num_blocks_ := length blocks; blocks_ := blocks |}.
    unfold bulkload. cbv zeta. rewrite Hfb.
    split; [reflexivity|]. cbn [blocks_ num_blocks_]. split; [exact Hne|].
    pose proof (form_blocks_shape _ _ _ _ Hfb) as Hshape.
    pose proof (blocks_of_index _ _ _ Hshape) as Hidx.
    pose proof (blocks_of_n_pts _ _ _ Hshape) as Hn.
    apply (f_equal (@length nat)) in Hidx.
    rewrite length_map, Hlen_order in Hidx. rewrite <- Hidx.
    rewrite <- (length_map Block.index_ blocks).
    apply length_concat_nonempty.
    apply Forall_map.
    rewrite Forall_forall in *. intros b Hbin.
    rewrite <- (Hn b Hbin). exact (Hne b Hbin).
Qed.

(** When the first key is below its own threshold [M * b] the first
    iteration absorbs nothing and the loop never ends. *)
Lemma bulkload_diverges (r : Result) (rest0 : list Result) :
  qsort_desc order_init = r :: rest0 ->
  flt (key_ r) (fmul (key_ r) blocking_ratio) = true ->
  forall fuel, bulkload fuel = None.
Proof.
  intros Horder Hlt fuel. unfold bulkload. cbv zeta. rewrite Horder.
  rewrite form_blocks_stuck; [reflexivity|].
  unfold make_block. cbn [hd absorb]. cbv zeta.
  destruct (MAX_BLOCK_NUM <=? 0)%nat; [reflexivity|].
  now rewrite Hlt.
Qed.

(** ** What [bulkload] establishes block by block *)

(** The norms of the ids of a list do not increase along the list. *)
Definition norm_descending (ids : list nat) : Prop :=
  StronglySorted (fun id1 id2 => nth id2 norm_d_ 0 <= nth id1 norm_d_ 0) ids.

(** What [bulkload] establishes for a block. *)
Definition block_ok (blk : Block.t) : Prop :=
  Block.n_pts_ blk = length (Block.index_ blk)
  /\ norm_descending (Block.index_ blk)
  /\ Forall (fun id => (id < n_pts_)%nat /\ nth id norm_d_ 0 <= Block.M_ blk)
            (Block.index_ blk)
  /\ (forall id0, hd_error (Block.index_ blk) = Some id0 ->
        Block.M_ blk = nth id0 norm_d_ 0).

Lemma length_lift (M_sqr : R) (r : Result) :
  length (lift M_sqr r) = (dim_ + 1)%nat.
Proof.
  unfold lift. cbv zeta. rewrite length_app, length_map, length_seq.
  reflexivity.
Qed.

Lemma blocks_of_rows (rest : list Result) (blocks : list Block.t)
      (h2 : list (list R)) :
  blocks_of rest blocks h2 ->
  length h2 = length rest /\ Forall (fun v => length v = (dim_ + 1)%nat) h2.
Proof.
  induction 1 as [|r rest0 taken rest' blk blocks h2 Hrest Hn HM Hidx Hlsh
                    Hall Hcap Hrec [IHl IHf]]; [split; [reflexivity|constructor]|].
  split.
  - rewrite Hrest, !length_app, length_map, IHl. reflexivity.
  - apply Forall_app. split; [|exact IHf].
    apply Forall_map, Forall_forall. intros x _. apply length_lift.
Qed.

Lemma blocks_of_lsh (rest : list Result) (blocks : list Block.t)
      (h2 : list (list R)) :
  blocks_of rest blocks h2 ->
  forall k blk,
    nth_error blocks k = Some blk ->
    (Block.n_pts_ blk <= MAX_BLOCK_NUM)%nat
    /\ Block.lsh_ blk
       = (if (N_THRESHOLD <? Block.n_pts_ blk)%nat
          then Some {| qalsh_n := Block.n_pts_ blk; qalsh_d := dim_ + 1;
                       qalsh_ratio := nn_ratio_;
                       qalsh_data :=
                         firstn (Block.n_pts_ blk)
                                (skipn (block_start blocks k) h2) |}
          else None)
    /\ length (firstn (Block.n_pts_ blk) (skipn (block_start blocks k) h2))
       = Block.n_pts_ blk.
Proof.
  induction 1 as [|r rest0 taken rest' blk0 blocks h2 Hrest Hn HM Hidx Hlsh
                    Hall Hcap Hrec IH]; intros k blk Hk.
  - destruct k; discriminate.
  - destruct k as [|k]; cbn [nth_error block_start] in *.
    + inversion Hk; subst blk0. clear Hk. split; [lia|].
      rewrite Hlsh, Hn. cbn [skipn].
      rewrite firstn_app, length_map, Nat.sub_diag. cbn [firstn].
      rewrite app_nil_r, firstn_all2 by (rewrite length_map; lia).
      split; [reflexivity | apply length_map].
    + destruct (IH k blk Hk) as (Hle & Heq & Hslice). split; [exact Hle|].
      rewrite Heq. rewrite Hn.
      rewrite skipn_app, length_map.
      rewrite (skipn_all2 (map (lift (key_ r * key_ r)) taken))
        by (rewrite length_map; lia).
      replace (length taken + block_start blocks k - length taken)%nat
        with (block_start blocks k) by lia.
      split; [reflexivity | exact Hslice].
Qed.

(** Why the inner loop stops: the end of [order], a full block, or a norm
    below the threshold. *)
Lemma absorb_stop (M_sqr : R) (m : fval) (rest : list Result) :
  forall n n' lifted rest',
    absorb M_sqr m rest n = (n', lifted, rest') ->
    rest' = [] \/ (MAX_BLOCK_NUM <= n')%nat
    \/ exists r rest'', rest' = r :: rest'' /\ flt (key_ r) m = true.
Proof.
  induction rest as [|r rest IH]; intros n n' lifted rest' Habs;
    cbn [absorb] in Habs.
  - inversion Habs; subst. now left.
  - destruct (Nat.leb_spec MAX_BLOCK_NUM n) as [Hcap|Hcap].
    { inversion Habs; subst. right. now left. }
    destruct (flt (key_ r) m) eqn:Hge.
    { inversion Habs; subst. right. right. eauto. }
    destruct (absorb M_sqr m rest (S n)) as [[n1 lifted1] rest1] eqn:Hrec.
    inversion Habs; subst. exact (IH _ _ _ _ Hrec).
Qed.

Lemma make_block_stop (r : Result) (rest0 : list Result)
      (blk : Block.t) (lifted : list (list R)) (rest' : list Result) :
  make_block (r :: rest0) = (blk, lifted, rest') ->
  rest' = [] \/ (MAX_BLOCK_NUM <= Block.n_pts_ blk)%nat
  \/ exists r' rest'',
       rest' = r' :: rest''
       /\ flt (key_ r') (fmul (Block.M_ blk) blocking_ratio) = true.
Proof.
  unfold make_block. cbn [hd]. cbv zeta.
  destruct (absorb (key_ r * key_ r) (fmul (key_ r) blocking_ratio)
                   (r :: rest0) 0)
    as [[n lifted1] rest1] eqn:Habs.
  intros Hmk. inversion Hmk; subst. clear Hmk.
  cbn [Block.n_pts_ Block.M_].
  exact (absorb_stop _ _ _ _ _ _ _ Habs).
Qed.

(** A block that is not the last one was closed because it was full or
    because the next norm is below its threshold. *)
Lemma form_blocks_maximal (fuel : nat) :
  forall rest blocks h2,
    form_blocks fuel rest = Some (blocks, h2) ->
    forall k b1 b2,
      nth_error blocks k = Some b1 -> nth_error blocks (S k) = Some b2 ->
      (MAX_BLOCK_NUM <= Block.n_pts_ b1)%nat
      \/ flt (Block.M_ b2) (fmul (Block.M_ b1) blocking_ratio) = true.
Proof.
  induction fuel as [|fuel IH]; intros [|r rest0] blocks h2 Hfb k b1 b2 Hk1 Hk2;
    cbn [form_blocks] in Hfb; try discriminate.
  - inversion Hfb; subst. destruct k; discriminate.
  - inversion Hfb; subst. destruct k; discriminate.
  - destruct (make_block (r :: rest0)) as [[blk lifted] rest'] eqn:Hmk.
    destruct (form_blocks fuel rest') as [[blocks' h2']|] eqn:Hrec;
      [|discriminate].
    inversion Hfb; subst. clear Hfb.
    destruct k as [|k]; cbn [nth_error] in Hk1, Hk2.
    + inversion Hk1; subst b1. clear Hk1.
      destruct (make_block_stop _ _ _ _ _ Hmk)
        as [Hnil|[Hfull|(r' & rest'' & Hrest & Hlt)]].
      * subst rest'. destruct fuel; cbn [form_blocks] in Hrec;
          inversion Hrec; subst; discriminate.
      * now left.
      * right. subst rest'.
        destruct fuel as [|fuel']; cbn [form_blocks] in Hrec; [discriminate|].
        destruct (make_block (r' :: rest'')) as [[blk2 lifted2] rest2] eqn:Hmk2.
        destruct (form_blocks fuel' rest2) as [[blocks2 h22]|];
          [|discriminate].
        inversion Hrec; subst. cbn [nth_error] in Hk2.
        inversion Hk2; subst b2.
        apply make_block_spec in Hmk2 as (_ & _ & _ & _ & HM2 & _).
        now rewrite HM2.
    + exact (IH _ _ _ Hrec k b1 b2 Hk1 Hk2).
Qed.

Lemma descending_app_l (l1 l2 : list Result) :
  descending (l1 ++ l2) -> descending l1.
Proof.
  induction l1 as [|r l1 IH]; intros Hs; [constructor|].
  inversion Hs as [|? ? Hs' Hall]; subst.
  constructor; [now apply IH|].
  apply Forall_app in Hall. tauto.
Qed.

Lemma norm_descending_ids (l : list Result) :
  descending l ->
  Forall (fun r => key_ r = nth (id_ r) norm_d_ 0 /\ (id_ r < n_pts_)%nat) l ->
  norm_descending (map id_ l).
Proof.
  induction 1 as [|r l Hs IH Hall]; intros Hkeys; [constructor|].
  inversion Hkeys as [|? ? [Hr _] Hkeys']; subst.
  cbn [map]. constructor; [now apply IH|].
  apply Forall_map, Forall_forall. intros x Hx.
  pose proof (proj1 (Forall_forall _ _) Hall x Hx) as Hle.
  pose proof (proj1 (Forall_forall _ _) Hkeys' x Hx) as [Hkx _].
  rewrite <- Hr, <- Hkx. exact Hle.
Qed.

Lemma blocks_of_ok (rest : list Result) (blocks : list Block.t)
      (h2 : list (list R)) :
  blocks_of rest blocks h2 -> descending rest ->
  Forall (fun r => key_ r = nth (id_ r) norm_d_ 0 /\ (id_ r < n_pts_)%nat) rest ->
  Forall block_ok blocks.
Proof.
  induction 1 as [|r rest0 taken rest' blk blocks h2 Hrest Hn HM Hidx Hlsh
                    Hall Hcap Hrec IH]; intros Hs Hkeys; [constructor|].
  pose proof (descending_head _ _ Hs) as Hhead.
  rewrite Hrest in Hs, Hhead, Hkeys.
  apply Forall_app in Hhead as [Hhead _].
  apply Forall_app in Hkeys as [Hkt Hkr].
  constructor; [|apply IH; [eapply descending_app_r; eassumption | exact Hkr]].
  unfold block_ok. rewrite Hidx, HM, Hn, length_map.
  split; [reflexivity|]. split; [|split].
  - apply norm_descending_ids; [eapply descending_app_l; eassumption|exact Hkt].
  - apply Forall_map, Forall_forall. intros x Hx.
    pose proof (proj1 (Forall_forall _ _) Hkt x Hx) as [Hkx Hlt].
    pose proof (proj1 (Forall_forall _ _) Hhead x Hx) as Hle.
    split; [exact Hlt | now rewrite <- Hkx].
  - intros id0 Hhd. destruct taken as [|x taken]; [discriminate|].
    cbn [map hd_error] in Hhd. inversion Hhd; subst id0.
    cbn [app] in Hrest. inversion Hrest; subst x.
    inversion Hkt as [|? ? [Hkx _] _]; subst. exact Hkx.
Qed.

Lemma bulkload_blocks_ok (fuel : nat) (idx : Index) :
  sorts_descending -> bulkload fuel = Some idx ->
  Forall block_ok (blocks_ idx)
  /\ StronglySorted (fun b1 b2 => Block.M_ b2 <= Block.M_ b1) (blocks_ idx)
  /\ Forall (fun b => (0 < Block.n_pts_ b)%nat) (blocks_ idx).
Proof.
  intros Hsort Hload.
  apply bulkload_inv in Hload as (Hfb & _ & _).
  pose proof (form_blocks_nonempty _ _ _ _ Hfb) as Hne.
  apply form_blocks_shape in Hfb. split; [|split].
  - eapply blocks_of_ok;
      [exact Hfb | exact (order_descending Hsort) | exact (order_keys Hsort)].
  - eapply blocks_of_M_sorted; [exact Hfb | exact (order_descending Hsort)].
  - exact Hne.
Qed.

Lemma length_order :
  sorts_descending -> length (qsort_desc order_init) = n_pts_.
Proof.
  intros Hsort. rewrite (Permutation_length (proj1 (Hsort order_init))).
  unfold order_init. now rewrite length_map, length_seq.
Qed.

(** X6 ([bulkload], blocks): every block of a completed build has between
    1 and [MAX_BLOCK_NUM] objects; it owns a QALSH index exactly when it has
    more than [N_THRESHOLD] objects, and that index is built over the block's
    own [n] lifted vectors, [h2_alsh_data_[start .. start + n)], in dimension
    [dim_ + 1] with ratio [nn_ratio_]; [h2_alsh_data_] has [n_pts_] rows of
    [dim_ + 1] coordinates. *)
Theorem block_layout (fuel : nat) (idx : Index) (k : nat) (blk : Block.t) :
  sorts_descending ->
  bulkload fuel = Some idx ->
  nth_error (blocks_ idx) k = Some blk ->
  (0 < Block.n_pts_ blk <= MAX_BLOCK_NUM)%nat
  /\ Block.lsh_ blk
     = (if (N_THRESHOLD <? Block.n_pts_ blk)%nat
        then Some {| qalsh_n := Block.n_pts_ blk; qalsh_d := dim_ + 1;
                     qalsh_ratio := nn_ratio_;
                     qalsh_data :=
                       firstn (Block.n_pts_ blk)
                              (skipn (block_start (blocks_ idx) k)
                                     (h2_alsh_data_ idx)) |}
        else None)
  /\ length (firstn (Block.n_pts_ blk)
                    (skipn (block_start (blocks_ idx) k) (h2_alsh_data_ idx)))
     = Block.n_pts_ blk
  /\ length (h2_alsh_data_ idx) = n_pts_
  /\ Forall (fun v => length v = (dim_ + 1)%nat) (h2_alsh_data_ idx).
Proof.
  intros Hsort Hload Hk.
  apply bulkload_inv in Hload as (Hfb & _ & _).
  pose proof (form_blocks_nonempty _ _ _ _ Hfb) as Hne.
  apply form_blocks_shape in Hfb.
  destruct (blocks_of_lsh _ _ _ Hfb k blk Hk) as (Hcap & Hlsh & Hslice).
  destruct (blocks_of_rows _ _ _ Hfb) as [Hlen Hrows].
  pose proof (proj1 (Forall_forall _ _) Hne blk (nth_error_In _ _ Hk)) as Hpos.
  cbv beta in Hpos.
  split; [lia|]. split; [exact Hlsh|]. split; [exact Hslice|].
  split; [|exact Hrows].
  rewrite Hlen. now apply length_order.
Qed.

(** X7 ([bulkload], maximum norms): the maximum norm [M] of a block is the
    norm of its first member, no member has a larger norm, and the members
    are stored in descending norm order; the global [M_] is the largest norm
    of the dataset and bounds every block's [M]. *)
Theorem block_max_norm (fuel : nat) (idx : Index) (blk : Block.t) :
  sorts_descending ->
  bulkload fuel = Some idx ->
  In blk (blocks_ idx) ->
  (exists id0, hd_error (Block.index_ blk) = Some id0
               /\ Block.M_ blk = nth id0 norm_d_ 0)
  /\ Forall (fun id => nth id norm_d_ 0 <= Block.M_ blk) (Block.index_ blk)
  /\ norm_descending (Block.index_ blk)
  /\ Block.M_ blk <= M_ idx
  /\ (forall id, (id < n_pts_)%nat -> nth id norm_d_ 0 <= M_ idx)
  /\ (exists id, (id < n_pts_)%nat /\ M_ idx = nth id norm_d_ 0).
Proof.
  intros Hsort Hload Hblk.
  destruct (bulkload_blocks_ok fuel idx Hsort Hload) as (Hok & _ & Hne).
  pose proof (proj1 (Forall_forall _ _) Hok blk Hblk) as (Hn & Hdesc & Hall & Hhd).
  pose proof (proj1 (Forall_forall _ _) Hne blk Hblk) as Hpos.
  cbv beta in Hpos.
  assert (HM : M_ idx = key_ (hd {| key_ := 0; id_ := 0 |}
                                 (qsort_desc order_init))).
  { unfold bulkload in Hload. cbv zeta in Hload.
    destruct (form_blocks fuel (qsort_desc order_init)) as [[bs h2]|];
      [|discriminate].
    inversion Hload; subst. reflexivity. }
  assert (Hmax : forall id, (id < n_pts_)%nat -> nth id norm_d_ 0 <= M_ idx).
  { intros id Hid. rewrite HM.
    assert (Hin : In id (map id_ (qsort_desc order_init))).
    { eapply Permutation_in; [apply Permutation_sym, (order_ids Hsort)|].
      apply in_seq. lia. }
    apply in_map_iff in Hin as (r & Hidr & Hin).
    pose proof (proj1 (Forall_forall _ _) (order_keys Hsort) r Hin) as [Hkey _].
    rewrite Hidr in Hkey. rewrite <- Hkey.
    pose proof (order_descending Hsort) as Hs.
    destruct (qsort_desc order_init) as [|r0 l]; [destruct Hin|].
    cbn [hd].
    exact (proj1 (Forall_forall _ _) (descending_head _ _ Hs) r Hin). }
  destruct (Block.index_ blk) as [|id0 tl] eqn:Hidx; [cbn in Hn; lia|].
  inversion Hall as [|? ? [Hid0 _] _]; subst.
  split; [exists id0; split; [reflexivity | now apply Hhd]|].
  split; [eapply Forall_impl; [|exact Hall]; cbv beta; tauto|].
  split; [exact Hdesc|].
  split; [rewrite (Hhd id0 eq_refl); now apply Hmax|].
  split; [exact Hmax|].
  pose proof (length_order Hsort) as Hlen.
  pose proof (order_keys Hsort) as Hkeys.
  destruct (qsort_desc order_init) as [|r0 l]; [cbn in Hlen; lia|].
  inversion Hkeys as [|? ? [Hk0 Hlt0] _]; subst.
  exists (id_ r0). split; [exact Hlt0|]. rewrite HM. exact Hk0.
Qed.

(** X8 ([bulkload], blocks are maximal): a block that is followed by
    another one was closed for one of the two reasons of the inner loop: it
    holds [MAX_BLOCK_NUM] objects, or the largest remaining norm, which is
    the next block's [M], is below its threshold [M * b_]. *)
Theorem block_closed_when (fuel : nat) (idx : Index) (k : nat)
        (b1 b2 : Block.t) :
  bulkload fuel = Some idx ->
  nth_error (blocks_ idx) k = Some b1 ->
  nth_error (blocks_ idx) (S k) = Some b2 ->
  (Block.n_pts_ b1 = MAX_BLOCK_NUM
   \/ flt (Block.M_ b2) (fmul (Block.M_ b1) (b_ idx)) = true)
  /\ (forall b, b_ idx = Fin b ->
        Block.n_pts_ b1 = MAX_BLOCK_NUM \/ Block.M_ b2 < Block.M_ b1 * b).
Proof.
  intros Hload Hk1 Hk2.
  apply bulkload_inv in Hload as (Hfb & Hb & _).
  pose proof (form_blocks_maximal _ _ _ _ Hfb k b1 b2 Hk1 Hk2) as Hmax.
  apply form_blocks_shape in Hfb.
  destruct (blocks_of_lsh _ _ _ Hfb k b1 Hk1) as (Hcap & _).
  assert (Hor : Block.n_pts_ b1 = MAX_BLOCK_NUM
                \/ flt (Block.M_ b2) (fmul (Block.M_ b1) (b_ idx)) = true).
  { rewrite Hb. destruct Hmax as [Hfull|Hlt]; [left; lia | now right]. }
  split; [exact Hor|].
  intros b Hfin. destruct Hor as [Hfull|Hlt]; [now left|right].
  rewrite Hfin in Hlt. cbn [fmul flt] in Hlt.
  destruct (Rlt_dec (Block.M_ b2) (Block.M_ b1 * b)); [assumption|discriminate].
Qed.

End Reduction.

(** ** The insertion sort meets its contract *)

Lemma insert_desc_perm (r : Result) (l : list Result) :
  Permutation (insert_desc r l) (r :: l).
Proof.
  induction l as [|x l IH]; cbn [insert_desc]; [reflexivity|].
  destruct (Rle_dec (key_ x) (key_ r)); [reflexivity|].
  rewrite IH. apply perm_swap.
Qed.

Lemma insert_desc_sorted (r : Result) (l : list Result) :
  descending l -> descending (insert_desc r l).
Proof.
  induction l as [|x l IH]; intros Hs; cbn [insert_desc].
  - constructor; constructor.
  - inversion Hs as [|? ? Hl Hx]; subst.
    destruct (Rle_dec (key_ x) (key_ r)) as [Hle|Hgt].
    + constructor; [exact Hs|].
      constructor; [exact Hle|].
      eapply Forall_impl; [|exact Hx]. cbv beta. intros y Hy. lra.
    + constructor; [now apply IH|].
      eapply Permutation_Forall;
        [apply Permutation_sym, insert_desc_perm|].
      constructor; [lra | exact Hx].
Qed.

Lemma isort_desc_sorts : sorts_descending isort_desc.
Proof.
  intros l. induction l as [|r l [IHp IHs]]; cbn [isort_desc fold_right].
  - split; constructor.
  - split.
    + rewrite insert_desc_perm. now constructor.
    + now apply insert_desc_sorted.
Qed.

Lemma blocking_ratio_1_0 : blocking_ratio 1 0 = Fin 0.
Proof.
  unfold blocking_ratio, fdiv. rewrite pow1.
  destruct (Req_dec_T (1 - 0) 0) as [Hz|_]; [lra|].
  cbn [fsqrt].
  destruct (Rlt_dec ((1 - 1) / (1 - 0)) 0) as [Hneg|_]; [lra|].
  f_equal. replace ((1 - 1) / (1 - 0)) with 0 by lra.
  apply sqrt_0.
Qed.


(** Evaluation on concrete reals: unfold the list functions, settle each
    comparison by linear arithmetic. *)
Ltac decide_order :=
  repeat (cbn [seq map nth fold_right insert_desc key_ id_ hd absorb
               Nat.leb Nat.ltb firstn lift app length fmul flt];
          match goal with
          | |- context [Rle_dec ?a ?b] => destruct (Rle_dec a b); try lra
          | |- context [Rlt_dec ?a ?b] => destruct (Rlt_dec a b); try lra
          end).

Lemma ex_order :
  isort_desc (order_init 3 ex_norm)
  = [ {| key_ := 5; id_ := 1 |}; {| key_ := 4; id_ := 2 |};
      {| key_ := 3; id_ := 0 |} ].
Proof.
  unfold order_init, ex_norm, isort_desc.
  decide_order. reflexivity.
Qed.

Lemma ex_bulkload :
  bulkload 2 1 isort_desc 3 1 1 0 ex_data ex_norm 3 = Some ex_index.
Proof.
  unfold bulkload. cbv zeta. rewrite ex_order.
  unfold form_blocks, make_block, ex_data.
  rewrite blocking_ratio_1_0.
  decide_order.
  reflexivity.
Qed.


Lemma blocks_partition_witness :
  Permutation (concat (map Block.index_ (blocks_ ex_index))) (seq 0 3)
  /\ NoDup (concat (map Block.index_ (blocks_ ex_index)))
  /\ Forall (fun b => length (Block.index_ b) = Block.n_pts_ b)
            (blocks_ ex_index).
Proof.
  apply (blocks_partition 2 1 isort_desc 3 1 1 0 ex_data ex_norm 3 ex_index).
  - exact isort_desc_sorts.
  - exact ex_bulkload.
Defined.



Lemma bulkload_terminates_witness :
  exists idx,
    bulkload 2 1 isort_desc 3 1 1 0 ex_data ex_norm 3 = Some idx
    /\ Forall (fun b => (0 < Block.n_pts_ b)%nat) (blocks_ idx)
    /\ (num_blocks_ idx <= 3)%nat.
Proof.
  apply (bulkload_terminates 2 1 isort_desc 3 1 1 0 ex_data ex_norm 3).
  - exact isort_desc_sorts.
  - lia.
  - lia.
  - lia.
  - reflexivity.
  - unfold ex_norm. repeat constructor; lra.
  - rewrite pow1. lra.
  - lra.
  - lia.
Defined.

(** C4, counterexample: one object of norm 1 and the ratios [c0 = 2],
    [c = 2] meet the preconditions ([c0^4 = 16 > c]), but
    [b = sqrt(15/14) > 1]: the first block absorbs nothing, [i] stays 0 and
    the outer loop never ends. *)
Lemma bulkload_loops_forever :
  (0 < 1)%nat /\ Forall (fun x => 0 < x) [1] /\ 2 < 2 ^ 4
  /\ ~ runs_to_completion 2 1 isort_desc 1 1 2 2 [[1]] [1].
Proof.
  split; [lia|]. split; [repeat constructor; lra|].
  assert (H16 : 2 ^ 4 = 16) by (cbn [pow]; lra).
  split; [rewrite H16; lra|].
  intros (fuel & idx & Hload & _).
  rewrite (bulkload_diverges 2 1 isort_desc 1 1 2 2 [[1]] [1]
             {| key_ := 1; id_ := 0 |} []) in Hload; [discriminate| |].
  - reflexivity.
  - cbn [key_]. unfold blocking_ratio, fdiv. rewrite H16.
    destruct (Req_dec_T (16 - 2) 0) as [Hz|_]; [lra|].
    cbn [fsqrt].
    destruct (Rlt_dec ((16 - 1) / (16 - 2)) 0) as [Hneg|_]; [lra|].
    cbn [fmul flt].
    destruct (Rlt_dec 1 (1 * sqrt ((16 - 1) / (16 - 2)))) as [_|Hge];
      [reflexivity|].
    exfalso. apply Hge. rewrite Rmult_1_l.
    rewrite <- sqrt_1 at 1. apply sqrt_lt_1_alt. split; [lra|].
    apply Rmult_lt_reg_r with (r := 16 - 2); [lra|].
    unfold Rdiv. rewrite Rmult_assoc, Rinv_l by lra. lra.
Qed.

Lemma block_layout_witness :
  (0 < Block.n_pts_ ex_block0 <= 2)%nat
  /\ Block.lsh_ ex_block0
     = (if (1 <? Block.n_pts_ ex_block0)%nat
        then Some {| qalsh_n := Block.n_pts_ ex_block0; qalsh_d := 1 + 1;
                     qalsh_ratio := 1;
                     qalsh_data :=
                       firstn (Block.n_pts_ ex_block0)
                              (skipn (block_start (blocks_ ex_index) 0)
                                     (h2_alsh_data_ ex_index)) |}
        else None)
  /\ length (firstn (Block.n_pts_ ex_block0)
                    (skipn (block_start (blocks_ ex_index) 0)
                           (h2_alsh_data_ ex_index)))
     = Block.n_pts_ ex_block0
  /\ length (h2_alsh_data_ ex_index) = 3%nat
  /\ Forall (fun v => length v = (1 + 1)%nat) (h2_alsh_data_ ex_index).
Proof.
  apply (block_layout 2 1 isort_desc 3 1 1 0 ex_data ex_norm 3 ex_index 0
                      ex_block0).
  - exact isort_desc_sorts.
  - exact ex_bulkload.
  - reflexivity.
Defined.

Lemma block_closed_when_witness :
  (Block.n_pts_ ex_block0 = 2%nat
   \/ flt (Block.M_ ex_block1) (fmul (Block.M_ ex_block0) (b_ ex_index)) = true)
  /\ (forall b, b_ ex_index = Fin b ->
        Block.n_pts_ ex_block0 = 2%nat
        \/ Block.M_ ex_block1 < Block.M_ ex_block0 * b).
Proof.
  apply (block_closed_when 2 1 isort_desc 3 1 1 0 ex_data ex_norm 3 ex_index 0
                           ex_block0 ex_block1).
  - exact ex_bulkload.
  - reflexivity.
  - reflexivity.
Defined.

Lemma block_max_norm_witness :
  (exists id0, hd_error (Block.index_ ex_block0) = Some id0
               /\ Block.M_ ex_block0 = nth id0 ex_norm 0)
  /\ Forall (fun id => nth id ex_norm 0 <= Block.M_ ex_block0)
            (Block.index_ ex_block0)
  /\ norm_descending ex_norm (Block.index_ ex_block0)
  /\ Block.M_ ex_block0 <= M_ ex_index
  /\ (forall id, (id < 3)%nat -> nth id ex_norm 0 <= M_ ex_index)
  /\ (exists id, (id < 3)%nat /\ M_ ex_index = nth id ex_norm 0).
Proof.
  apply (block_max_norm 2 1 isort_desc 3 1 1 0 ex_data ex_norm 3 ex_index
                        ex_block0).
  - exact isort_desc_sorts.
  - exact ex_bulkload.
  - left. reflexivity.
Defined.

End H2_ALSH.

(* ====================================================================== *)
(** * Binary32 arithmetic *)
(* ====================================================================== *)

(** [float] is IEEE 754 binary32 with round-to-nearest-even: the
    executable specification of the Standard Library at precision 24 and
    maximal exponent 128.  A finite value [S754_finite s m e] is
    [(-1)^s * m * 2^e]. *)
Module Binary32.

Definition prec : Z := 24.
Definition emax : Z := 128.
Definition float : Type := spec_float.

Definition zero : float := S754_zero false.
Definition nan : float := S754_nan.

(** The conversion of an [int] constant or value. *)
Definition of_int (z : Z) : float := binary_normalize prec emax z 0 false.

Definition mul : float -> float -> float := SFmul prec emax.
Definition add : float -> float -> float := SFadd prec emax.
Definition sub : float -> float -> float := SFsub prec emax.
Definition div : float -> float -> float := SFdiv prec emax.
Definition sqrt : float -> float := SFsqrt prec emax.

(** [x < y] and [x <= y]; both are false when an operand is a NaN. *)
Definition ltb : float -> float -> bool := SFltb.
Definition leb : float -> float -> bool := SFleb.

(** [pow(x, 4.0f)] of the C library, which is not under src/: taken as the
    correctly rounded fourth power. *)
Definition pow4 (x : float) : float :=
  match x with
  | S754_finite _ m e => binary_normalize prec emax (Zpos m ^ 4) (4 * e) false
  | S754_zero _ => zero
  | S754_infinity _ => S754_infinity false
  | S754_nan => nan
  end.

(** Modelled from the spec: [calc_inner_product] of util.h is not under
    src/; the spec has every reduction recompute the inner product of the
    data vector and the query over [dim] coordinates ([kmip] passes it the
    bound and the two norms as well).  It is taken as the accumulation
    [ret += p[i] * q[i]] from [0.0f] in index order, every product and every
    sum rounded. *)
Fixpoint dot_from (acc : float) (dim : nat) (p q : list float) : float :=
  match dim, p, q with
  | S dim', x :: p', y :: q' => dot_from (add acc (mul x y)) dim' p' q'
  | _, _, _ => acc
  end.

Definition calc_inner_product (dim : nat) (p q : list float) : float :=
  dot_from zero dim p q.

(** The rational number that a finite value stands for, and the inner
    product of two vectors of finite values without any rounding. *)
Definition exact (x : float) : Q :=
  match x with
  | S754_finite s m e =>
      (if s then -1 else 1) * inject_Z (Zpos m) * Qpower 2 e
  | _ => 0
  end.

Fixpoint exact_dot (p q : list float) : Q :=
  match p, q with
  | x :: p', y :: q' => exact x * exact y + exact_dot p' q'
  | _, _ => 0
  end.

(** ** The order of the comparisons *)

Lemma SFcompare_swap (x y : float) :
  SFcompare y x = option_map CompOpp (SFcompare x y).
Proof.
  destruct x as [sx|sx| |sx mx ex], y as [sy|sy| |sy my ey]; cbn;
    try reflexivity;
    try (destruct sx; reflexivity); try (destruct sy; reflexivity);
    try (destruct sx, sy; reflexivity).
  destruct sx, sy; try reflexivity;
    rewrite (Z.compare_antisym ey ex);
    destruct (Z.compare ey ex) eqn:He; cbn; try reflexivity;
    rewrite (Pos.compare_cont_antisym mx my Eq); cbn;
    now rewrite ?CompOpp_involutive.
Qed.

(** [x <= t] excludes [t < x]. *)
Lemma leb_not_ltb (x t : float) : leb x t = true -> ltb t x = false.
Proof.
  unfold leb, ltb, SFleb, SFltb. rewrite (SFcompare_swap x t).
  destruct (SFcompare x t) as [[| |]|]; cbn; congruence.
Qed.

End Binary32.

(* ====================================================================== *)
(** * H2_ALSH in binary32 (src/h2_alsh.cc) *)
(* ====================================================================== *)

(** [bulkload] and [kmip] once more, with every [float] operation rounded
    as the code rounds it.  The claims on the lifted vectors and on the
    pruning tests depend on that rounding. *)
Module H2_ALSH_f32.

Import Binary32.

(** [Result] of pri_queue.h. *)
Record Result : Type := { key_ : float; id_ : nat }.

(** The external NN index [QALSH(n, d, ratio, data)], kept as the arguments
    it is constructed from. *)
Record QALSH : Type :=
  { qalsh_n : nat; qalsh_d : nat; qalsh_ratio : float;
    qalsh_data : list (list float) }.

(** [struct Block] *)
Module Block.
Record t : Type :=
  { n_pts_ : nat;
    M_ : float;
    index_ : list nat;
    lsh_ : option QALSH }.
End Block.

(** The state that [bulkload] leaves in the [H2_ALSH] object. *)
Record Index : Type :=
  { M_ : float;
    b_ : float;
    h2_alsh_data_ : list (list float);
    num_blocks_ : nat;
    blocks_ : list Block.t }.

(** A stable sort by descending key, to run [bulkload] with: the comparison
    function [ResultCompDesc] of [qsort] is not under src/. *)
Fixpoint insert_desc (r : Result) (l : list Result) : list Result :=
  match l with
  | [] => [r]
  | x :: l' =>
      if leb (key_ x) (key_ r) then r :: l else x :: insert_desc r l'
  end.

Definition isort_desc (l : list Result) : list Result :=
  fold_right insert_desc [] l.

(** Modelled from the spec: [MaxK_List] (pri_queue.h) is not under src/.  It
    holds up to [k] pairs of a score and an id (kept here lowest score
    first); [insert] returns the lowest accepted score, or [MINREAL] while
    fewer than [k] pairs are held. *)
Module MaxK.

Definition acc : Type := list (float * nat).

Fixpoint place (key : float) (id : nat) (items : acc) : acc :=
  match items with
  | [] => [(key, id)]
  | (s, i) :: items' =>
      if ltb s key then (s, i) :: place key id items'
      else (key, id) :: items
  end.

Definition threshold (k : nat) (items : acc) : option float :=
  if (length items =? k)%nat
  then match items with
       | (s, _) :: _ => Some s
       | [] => None
       end
  else None.

Definition insert (k : nat) (MINREAL : float) (items : acc) (key : float)
           (id : nat) : acc * float :=
  let placed := place key id items in
  let kept := if (k <? length placed)%nat then tl placed else placed in
  (kept, match threshold k kept with Some s => s | None => MINREAL end).

End MaxK.

(** ** Inputs on which the code departs from the claims *)

(** [-FLT_MAX], the most negative [float], for [MINREAL] of def.h; the
    ratios [2.0f], [0.5f] and [1.0625f]. *)
Definition neg_flt_max : float := S754_finite true 16777215 104.
Definition two : float := S754_finite false 8388608 (-22).
Definition half : float := S754_finite false 8388608 (-24).
Definition c0_small : float := S754_finite false 8912896 (-23).

(** [2^64], whose square is above the largest [float]. *)
Definition huge : float := S754_finite false 8388608 41.

(** [2^-75] and [127/128 * 2^-75], whose squares are below the smallest
    positive [float]. *)
Definition tiny : float := S754_finite false 8388608 (-98).
Definition tiny' : float := S754_finite false 8323072 (-98).

(** The object [A = (8.80578327178955, 0)], of norm 8.80578327178955, and
    the object and query [P = (3.1700820922851562, 4.226776123046875)], of
    norm 5.283470153808594.  Every number is a [float]. *)
Definition a0 : float := S754_finite false 9233533 (-20).
Definition p0 : float := S754_finite false 13296288 (-22).
Definition p1 : float := S754_finite false 8864192 (-21).
Definition norm_p : float := S754_finite false 11080240 (-21).
Definition obj_a : list float := [a0; zero].
Definition obj_p : list float := [p0; p1].

(** 27.915056 and 27.915058, neighbours among the [float]s. *)
Definition ip_a : float := S754_finite false 14635529 (-19).
Definition ip_p : float := S754_finite false 14635530 (-19).

(** The index that [bulkload] builds on [A] and [P] for [c0 = 1.0625] and
    [c = 0.5], with [MAX_BLOCK_NUM = 2] and [N_THRESHOLD = 1]: one block,
    with an index over the two lifted vectors. *)
Definition pair_lifted : list (list float) :=
  [[a0; zero; zero]; [p0; p1; S754_finite false 14773653 (-21)]].

Definition pair_index : Index :=
  {| M_ := a0; b_ := S754_finite false 9987212 (-24);
     h2_alsh_data_ := pair_lifted;
     num_blocks_ := 1;
     blocks_ :=
       [{| Block.n_pts_ := 2; Block.M_ := a0; Block.index_ := [0; 1]%nat;
           Block.lsh_ :=
             Some {| qalsh_n := 2; qalsh_d := 3; qalsh_ratio := c0_small;
                     qalsh_data := pair_lifted |} |}] |}.

(** ** bulkload *)

Section Reduction.

(** Constants of def.h. *)
Variables MAX_BLOCK_NUM N_THRESHOLD : nat.
Variable MINREAL : float.

(** [qsort(order, n_pts_, sizeof(Result), ResultCompDesc)], a parameter as
    in [H2_ALSH]. *)
Variable qsort_desc : list Result -> list Result.

(** Fields set by the constructor. *)
Variables n_pts_ dim_ : nat.
Variables nn_ratio_ mip_ratio_ : float.
Variable data_ : list (list float).
Variable norm_d_ : list float.

(** [b_ = sqrt((pow(nn_ratio_,4.0f) - 1) / (pow(nn_ratio_,4.0f) - mip_ratio_))] *)
Definition blocking_ratio : float :=
  sqrt (div (sub (pow4 nn_ratio_) (of_int 1)) (sub (pow4 nn_ratio_) mip_ratio_)).

(** The array [order] before the sort. *)
Definition order_init : list Result :=
  map (fun i => {| key_ := nth i norm_d_ zero; id_ := i |}) (seq 0 n_pts_).

(** The lifted vector allocated for [order[i]]. *)
Definition lift (M_sqr : float) (r : Result) : list float :=
  let norm_d := key_ r in
  let id := id_ r in
  map (fun j => nth j (nth id data_ []) zero) (seq 0 dim_)
  ++ [sqrt (sub M_sqr (mul norm_d norm_d))].

(** The inner [while] loop. *)
Fixpoint absorb (M_sqr m : float) (rest : list Result) (n : nat)
  : nat * list (list float) * list Result :=
  match rest with
  | [] => (n, [], [])
  | r :: rest' =>
      if (MAX_BLOCK_NUM <=? n)%nat then (n, [], rest)
      else if ltb (key_ r) m then (n, [], rest)
      else
        let '(n', lifted, rest'') := absorb M_sqr m rest' (S n) in
        (n', lift M_sqr r :: lifted, rest'')
  end.

(** One iteration of the outer loop. *)
Definition make_block (b : float) (rest : list Result)
  : Block.t * list (list float) * list Result :=
  let M := key_ (hd {| key_ := zero; id_ := 0 |} rest) in
  let m := mul M b in
  let M_sqr := mul M M in
  let '(n, lifted, rest') := absorb M_sqr m rest 0 in
  let index := map id_ (firstn n rest) in
  let lsh :=
    if (N_THRESHOLD <? n)%nat
    then Some {| qalsh_n := n; qalsh_d := dim_ + 1; qalsh_ratio := nn_ratio_;
                 qalsh_data := lifted |}
    else None in
  ({| Block.n_pts_ := n; Block.M_ := M; Block.index_ := index;
      Block.lsh_ := lsh |}, lifted, rest').

(** The outer [while (i < n_pts_)] loop, on fuel. *)
Fixpoint form_blocks (fuel : nat) (b : float) (rest : list Result)
  : option (list Block.t * list (list float)) :=
  match rest with
  | [] => Some ([], [])
  | _ :: _ =>
      match fuel with
      | O => None
      | S fuel' =>
          let '(block, lifted, rest') := make_block b rest in
          match form_blocks fuel' b rest' with
          | Some (blocks, h2_alsh_data) =>
              Some (block :: blocks, lifted ++ h2_alsh_data)
          | None => None
          end
      end
  end.

Definition bulkload (fuel : nat) : option Index :=
  let order := qsort_desc order_init in
  let b := blocking_ratio in
  match form_blocks fuel b order with
  | Some (blocks, h2_alsh_data) =>
      Some {| M_ := key_ (hd {| key_ := zero; id_ := 0 |} order);
              b_ := b;
              h2_alsh_data_ := h2_alsh_data;
              num_blocks_ := length blocks;
              blocks_ := blocks |}
  | None => None
  end.

(** The lifted vector of object [id] in a block of maximum norm [M], as the
    block loop computes it from [M_sqr = M * M]. *)
Definition lifted (M : float) (id : nat) : list float :=
  map (fun j => nth j (nth id data_ []) zero) (seq 0 dim_)
  ++ [sqrt (sub (mul M M)
                (mul (nth id norm_d_ zero) (nth id norm_d_ zero)))].

(** ** kmip *)

(** [MaxK_List] and [QALSH::knn] are not under src/. *)
Variable MaxK_List : Type.
Variable insert : MaxK_List -> float -> nat -> MaxK_List * float.
Variable knn : QALSH -> nat -> float -> list float -> list nat.

Variable top_k : nat.
Variable query : list float.
Variable normq : float.

(** Linear scan of a block, with its [break] on
    [norm_d_[id][0] * normq <= kip]. *)
Fixpoint linear_scan (index : list nat) (lst : MaxK_List) (kip : float)
  : MaxK_List * float :=
  match index with
  | [] => (lst, kip)
  | id :: index' =>
      if leb (mul (nth id norm_d_ zero) normq) kip then (lst, kip)
      else
        let ip := calc_inner_product dim_ (nth id data_ []) query in
        let '(lst', kip') := insert lst ip (id + 1) in
        linear_scan index' lst' kip'
  end.

(** The loop over the candidates returned by [knn], with its test
    [norm_d_[id][0] * normq > kip]. *)
Fixpoint refine_candidates (index cand : list nat) (lst : MaxK_List)
         (kip : float) : MaxK_List * float :=
  match cand with
  | [] => (lst, kip)
  | c :: cand' =>
      let id := nth c index 0%nat in
      if ltb kip (mul (nth id norm_d_ zero) normq) then
        let ip := calc_inner_product dim_ (nth id data_ []) query in
        let '(lst', kip') := insert lst ip (id + 1) in
        refine_candidates index cand' lst' kip'
      else refine_candidates index cand' lst kip
  end.

(** The loop that C10 compares it with: the inner product of every
    candidate is inserted, whatever its norm. *)
Fixpoint refine_unfiltered (index cand : list nat) (lst : MaxK_List)
         (kip : float) : MaxK_List * float :=
  match cand with
  | [] => (lst, kip)
  | c :: cand' =>
      let id := nth c index 0%nat in
      let ip := calc_inner_product dim_ (nth id data_ []) query in
      let '(lst', kip') := insert lst ip (id + 1) in
      refine_unfiltered index cand' lst' kip'
  end.

(** The lifted query of a delegate block. *)
Definition h2_alsh_query (lambda : float) : list float :=
  map (fun j => mul lambda (nth j query zero)) (seq 0 dim_) ++ [zero].

(** The loop of [kmip] over the blocks. *)
Fixpoint kmip_blocks (blocks : list Block.t) (lst : MaxK_List) (kip : float)
  : MaxK_List * float :=
  match blocks with
  | [] => (lst, kip)
  | block :: blocks' =>
      let index := Block.index_ block in
      let n := Block.n_pts_ block in
      let M := Block.M_ block in
      if leb (mul M normq) kip then (lst, kip)
      else if (n <=? N_THRESHOLD)%nat then
        let '(lst', kip') := linear_scan (firstn n index) lst kip in
        kmip_blocks blocks' lst' kip'
      else
        let lambda := div M normq in
        let radius :=
          sqrt (mul (of_int 2) (sub (mul M M) (mul lambda kip))) in
        let cand :=
          match Block.lsh_ block with
          | Some lsh => knn lsh top_k radius (h2_alsh_query lambda)
          | None => []
          end in
        let '(lst', kip') := refine_candidates index cand lst kip in
        kmip_blocks blocks' lst' kip'
  end.

Definition kmip (idx : Index) (lst : MaxK_List) : MaxK_List :=
  fst (kmip_blocks (blocks_ idx) lst MINREAL).

(** ** The accumulator contract of section 6 *)

Variable threshold : MaxK_List -> option float.

(** [insert] returns the lowest accepted score, or [MINREAL] while the
    accumulator is not full. *)
Definition returns_threshold : Prop :=
  forall lst key id,
    snd (insert lst key id)
    = match threshold (fst (insert lst key id)) with
      | Some t => t
      | None => MINREAL
      end.

(** Inserting a score not above the threshold of a full accumulator leaves
    its contents unchanged. *)
Definition keeps_when_not_above : Prop :=
  forall lst key id t,
    threshold lst = Some t -> leb key t = true ->
    fst (insert lst key id) = lst.

(** [kip] is the bound of [lst]: its threshold, or still [MINREAL]. *)
Definition tracks (lst : MaxK_List) (kip : float) : Prop :=
  kip = MINREAL \/ threshold lst = Some kip.

(** ** The lifted vectors *)

Lemma absorb_spec_f32 (M_sqr m : float) (rest : list Result) :
  forall n n' lifted rest',
    absorb M_sqr m rest n = (n', lifted, rest') ->
    exists taken,
      rest = taken ++ rest'
      /\ n' = (n + length taken)%nat
      /\ lifted = map (lift M_sqr) taken.
Proof.
  induction rest as [|r rest IH]; intros n n' lifted rest' Habs;
    cbn [absorb] in Habs.
  - inversion Habs; subst. exists []. cbn [app length map]. repeat split. lia.
  - destruct (MAX_BLOCK_NUM <=? n)%nat.
    { inversion Habs; subst. exists []. cbn [app length map]. repeat split. lia. }
    destruct (ltb (key_ r) m).
    { inversion Habs; subst. exists []. cbn [app length map]. repeat split. lia. }
    destruct (absorb M_sqr m rest (S n)) as [[n1 lifted1] rest1] eqn:Hrec.
    inversion Habs; subst. clear Habs.
    destruct (IH _ _ _ _ Hrec) as (taken & -> & -> & ->).
    exists (r :: taken). cbn [app length map]. repeat split. lia.
Qed.

Lemma lift_lifted (M : float) (r : Result) :
  key_ r = nth (id_ r) norm_d_ zero -> lift (mul M M) r = lifted M (id_ r).
Proof. intros Hkey. unfold lift, lifted. cbv zeta. now rewrite Hkey. Qed.

Lemma form_blocks_lifted (fuel : nat) (b : float) :
  forall rest blocks h2_alsh_data,
    Forall (fun r => key_ r = nth (id_ r) norm_d_ zero) rest ->
    form_blocks fuel b rest = Some (blocks, h2_alsh_data) ->
    h2_alsh_data
    = concat (map (fun blk => map (lifted (Block.M_ blk)) (Block.index_ blk))
                  blocks).
Proof.
  induction fuel as [|fuel IH]; intros rest blocks h2 Hkeys Hfb.
  - destruct rest; [|discriminate]. now inversion Hfb.
  - destruct rest as [|r rest]; [now inversion Hfb|].
    cbn [form_blocks] in Hfb. unfold make_block in Hfb.
    cbn [hd] in Hfb. cbv zeta in Hfb.
    destruct (absorb (mul (key_ r) (key_ r)) (mul (key_ r) b) (r :: rest) 0)
      as [[n lifted0] rest'] eqn:Habs.
    destruct (form_blocks fuel b rest') as [[blocks' h2']|] eqn:Hrec;
      [|discriminate].
    inversion Hfb; subst. clear Hfb.
    destruct (absorb_spec_f32 _ _ _ _ _ _ _ Habs) as (taken & Hsplit & -> & ->).
    rewrite Hsplit in Hkeys. apply Forall_app in Hkeys.
    destruct Hkeys as [Htaken Hrest'].
    cbn [map concat Block.M_ Block.index_ Nat.add].
    rewrite (IH _ _ _ Hrest' Hrec). f_equal.
    rewrite Hsplit, firstn_app, Nat.sub_diag, firstn_all. cbn [firstn].
    rewrite app_nil_r, map_map.
    apply map_ext_in. intros x Hx. apply lift_lifted.
    exact (proj1 (Forall_forall _ _) Htaken x Hx).
Qed.

Lemma order_init_keys_f32 :
  Forall (fun r => key_ r = nth (id_ r) norm_d_ zero) order_init.
Proof.
  unfold order_init. apply Forall_forall. intros r Hin.
  apply in_map_iff in Hin. destruct Hin as (i & <- & _). reflexivity.
Qed.

(** ** Termination of the outer loop *)

Lemma absorb_progress_f32 (M_sqr m : float) (r : Result) (rest : list Result) :
  (0 < MAX_BLOCK_NUM)%nat -> ltb (key_ r) m = false ->
  exists n lifted rest',
    absorb M_sqr m (r :: rest) 0 = (S n, lifted, rest')
    /\ (length rest' <= length rest)%nat.
Proof.
  intros Hcap Hge. cbn [absorb].
  destruct (Nat.leb_spec MAX_BLOCK_NUM 0) as [Hc|_]; [lia|].
  rewrite Hge.
  destruct (absorb M_sqr m rest 1) as [[n1 lifted1] rest1] eqn:Hrec.
  destruct (absorb_spec_f32 _ _ _ _ _ _ _ Hrec) as (taken & Hsplit & Hn & _).
  exists (length taken), (lift M_sqr r :: lifted1), rest1. split.
  - now rewrite Hn.
  - rewrite Hsplit, length_app. lia.
Qed.

(** With enough fuel the loop ends when every object passes the norm test
    of the block that starts at it. *)
Lemma form_blocks_total_f32 (fuel : nat) (b : float) :
  forall rest,
    (0 < MAX_BLOCK_NUM)%nat ->
    Forall (fun r => ltb (key_ r) (mul (key_ r) b) = false) rest ->
    (length rest <= fuel)%nat ->
    exists blocks h2, form_blocks fuel b rest = Some (blocks, h2).
Proof.
  induction fuel as [|fuel IH]; intros [|r rest0] Hcap Hall Hlen;
    cbn [length] in Hlen; try lia.
  - now exists [], [].
  - now exists [], [].
  - cbn [form_blocks]. unfold make_block. cbn [hd]. cbv zeta.
    inversion Hall as [|? ? Hr Hall0]; subst.
    destruct (absorb_progress_f32 (mul (key_ r) (key_ r)) (mul (key_ r) b)
                              r rest0 Hcap Hr)
      as (n & lifted0 & rest' & Habs & Hshort).
    rewrite Habs.
    destruct (absorb_spec_f32 _ _ _ _ _ _ _ Habs) as (taken & Hsplit & _ & _).
    destruct (IH rest' Hcap) as (blocks & h2 & Hrec).
    + rewrite Hsplit in Hall. apply Forall_app in Hall. tauto.
    + lia.
    + rewrite Hrec. eauto.
Qed.

(** The block loop makes no progress from an object that fails the norm
    test of the block that starts at it. *)
Lemma form_blocks_stuck_f32 (b : float) (r : Result) (rest : list Result) :
  ltb (key_ r) (mul (key_ r) b) = true ->
  forall fuel, form_blocks fuel b (r :: rest) = None.
Proof.
  intros Hlt. induction fuel as [|fuel IH]; [reflexivity|].
  cbn [form_blocks]. unfold make_block. cbn [hd absorb]. cbv zeta.
  destruct (MAX_BLOCK_NUM <=? 0)%nat; [now rewrite IH|].
  rewrite Hlt. now rewrite IH.
Qed.

(** ** The bound that [kmip] prunes with *)

Lemma insert_tracks (lst : MaxK_List) (key : float) (id : nat) :
  returns_threshold ->
  tracks (fst (insert lst key id)) (snd (insert lst key id)).
Proof.
  intros Hret. unfold tracks. rewrite (Hret lst key id).
  destruct (threshold (fst (insert lst key id))); [now right | now left].
Qed.

Lemma linear_scan_tracks (index : list nat) :
  returns_threshold ->
  forall lst kip,
    tracks lst kip ->
    tracks (fst (linear_scan index lst kip)) (snd (linear_scan index lst kip)).
Proof.
  intros Hret. induction index as [|id index IH]; intros lst kip Htr;
    cbn [linear_scan]; [exact Htr|].
  destruct (leb (mul (nth id norm_d_ zero) normq) kip); [exact Htr|].
  pose proof (insert_tracks lst
                (calc_inner_product dim_ (nth id data_ []) query) (id + 1)
                Hret) as Hins.
  destruct (insert lst (calc_inner_product dim_ (nth id data_ []) query)
                   (id + 1)) as [lst' kip'].
  now apply IH.
Qed.

Lemma refine_candidates_tracks (index cand : list nat) :
  returns_threshold ->
  forall lst kip,
    tracks lst kip ->
    tracks (fst (refine_candidates index cand lst kip))
           (snd (refine_candidates index cand lst kip)).
Proof.
  intros Hret. induction cand as [|c cand IH]; intros lst kip Htr;
    cbn [refine_candidates]; [exact Htr|]. cbv zeta.
  destruct (ltb kip (mul (nth (nth c index 0%nat) norm_d_ zero) normq));
    [|now apply IH].
  pose proof (insert_tracks lst
                (calc_inner_product dim_ (nth (nth c index 0%nat) data_ [])
                                    query)
                (nth c index 0%nat + 1) Hret) as Hins.
  destruct (insert lst
              (calc_inner_product dim_ (nth (nth c index 0%nat) data_ [])
                                  query)
              (nth c index 0%nat + 1)) as [lst' kip'].
  now apply IH.
Qed.

Lemma kmip_blocks_tracks (blocks : list Block.t) :
  returns_threshold ->
  forall lst kip,
    tracks lst kip ->
    tracks (fst (kmip_blocks blocks lst kip)) (snd (kmip_blocks blocks lst kip)).
Proof.
  intros Hret. induction blocks as [|block blocks IH]; intros lst kip Htr;
    cbn [kmip_blocks]; [exact Htr|]. cbv zeta.
  destruct (leb (mul (Block.M_ block) normq) kip); [exact Htr|].
  destruct (Block.n_pts_ block <=? N_THRESHOLD)%nat.
  - pose proof (linear_scan_tracks
                  (firstn (Block.n_pts_ block) (Block.index_ block))
                  Hret lst kip Htr) as Hscan.
    destruct (linear_scan (firstn (Block.n_pts_ block) (Block.index_ block))
                          lst kip) as [lst' kip'].
    now apply IH.
  - match goal with
    | |- context [refine_candidates ?i ?c lst kip] =>
        pose proof (refine_candidates_tracks i c Hret lst kip Htr) as Href;
        destruct (refine_candidates i c lst kip) as [lst' kip']
    end.
    now apply IH.
Qed.

(** ** Properties beyond the claims *)

(** X17 ([bulkload], lifted vectors in [float]): whatever permutation of
    [order] the sort returns, a completed build stores, block after block
    and member after member in the order of [index_], the [dim_]
    coordinates of the member followed by the one coordinate
    [sqrt(M * M - norm * norm)], computed in [float] from the maximum norm
    [M] of the block and the norm [norm_d_[id][0]] of the member. *)
Theorem lifted_vectors_layout (fuel : nat) (idx : Index) :
  (forall l, Permutation (qsort_desc l) l) ->
  bulkload fuel = Some idx ->
  h2_alsh_data_ idx
  = concat (map (fun blk => map (lifted (Block.M_ blk)) (Block.index_ blk))
                (blocks_ idx)).
Proof.
  intros Hperm Hload. unfold bulkload in Hload. cbv zeta in Hload.
  destruct (form_blocks fuel blocking_ratio (qsort_desc order_init))
    as [[blocks h2]|] eqn:Hfb; [|discriminate].
  inversion Hload; subst. clear Hload. cbn [h2_alsh_data_ blocks_].
  apply (form_blocks_lifted fuel blocking_ratio _ _ _) in Hfb; [exact Hfb|].
  apply Forall_forall. intros r Hin.
  apply (Permutation_in _ (Hperm order_init)) in Hin.
  exact (proj1 (Forall_forall _ _) order_init_keys_f32 r Hin).
Qed.

(** X19 ([bulkload], termination in [float]): with [MAX_BLOCK_NUM > 0], the
    build ends within [n_pts_] blocks when no norm [x] is below the rounded
    product [x * b_], the bound of the block that starts at [x]; and it
    never ends when the largest norm, the first of [order], is below it. *)
Theorem bulkload_ends_when (key : float) :
  (forall l, Permutation (qsort_desc l) l) ->
  (0 < MAX_BLOCK_NUM)%nat ->
  ((forall i, (i < n_pts_)%nat ->
      ltb (nth i norm_d_ zero) (mul (nth i norm_d_ zero) blocking_ratio)
      = false) ->
   exists idx, bulkload n_pts_ = Some idx)
  /\ (hd_error (map key_ (qsort_desc order_init)) = Some key ->
      ltb key (mul key blocking_ratio) = true ->
      forall fuel, bulkload fuel = None).
Proof.
  intros Hperm Hcap. split.
  - intros Hpass.
    destruct (form_blocks_total_f32 n_pts_ blocking_ratio
                                (qsort_desc order_init) Hcap)
      as (blocks & h2 & Hfb).
    + apply Forall_forall. intros r Hin.
      apply (Permutation_in _ (Hperm order_init)) in Hin.
      unfold order_init in Hin. apply in_map_iff in Hin.
      destruct Hin as (i & <- & Hi). apply in_seq in Hi. cbn [key_].
      apply Hpass. lia.
    + rewrite (Permutation_length (Hperm order_init)).
      unfold order_init. now rewrite length_map, length_seq.
    + unfold bulkload. cbv zeta. rewrite Hfb. eauto.
  - intros Hhd Hlt fuel. unfold bulkload. cbv zeta.
    destruct (qsort_desc order_init) as [|r rest]; [discriminate|].
    cbn [map hd_error] in Hhd. inversion Hhd; subst.
    now rewrite (form_blocks_stuck_f32 blocking_ratio r rest Hlt fuel).
Qed.

(** X18 ([kmip], the pruning bound): when [insert] returns the threshold of
    the accumulator, or [MINREAL] while it is not full, the bound [kip] that
    [kmip] compares the norm products with is, after every block, [MINREAL]
    or the threshold of the accumulator as it then is. *)
Theorem kmip_bound_is_threshold (blocks : list Block.t) (lst : MaxK_List) :
  returns_threshold ->
  tracks (fst (kmip_blocks blocks lst MINREAL))
         (snd (kmip_blocks blocks lst MINREAL)).
Proof.
  intros Hret. apply kmip_blocks_tracks; [exact Hret|]. now left.
Qed.

End Reduction.

(** The insertion sort returns a permutation. *)
Lemma insert_desc_perm_f32 (r : Result) (l : list Result) :
  Permutation (insert_desc r l) (r :: l).
Proof.
  induction l as [|x l IH]; cbn [insert_desc]; [reflexivity|].
  destruct (leb (key_ x) (key_ r)); [reflexivity|].
  rewrite IH. apply perm_swap.
Qed.

Lemma isort_desc_perm (l : list Result) : Permutation (isort_desc l) l.
Proof.
  induction l as [|r l IH]; [reflexivity|].
  unfold isort_desc. cbn [fold_right]. fold (isort_desc l).
  rewrite insert_desc_perm_f32. now constructor.
Qed.

(** The accumulator [MaxK] meets the contract. *)
Lemma MaxK_returns_threshold (k : nat) (MINREAL : float) :
  returns_threshold MINREAL MaxK.acc (MaxK.insert k MINREAL) (MaxK.threshold k).
Proof. intros items key id. reflexivity. Qed.

Lemma MaxK_keeps_when_not_above (k : nat) (MINREAL : float) :
  keeps_when_not_above MaxK.acc (MaxK.insert k MINREAL) (MaxK.threshold k).
Proof.
  intros items key id s Hthr Hle. unfold MaxK.threshold in Hthr.
  destruct (Nat.eqb_spec (length items) k) as [Hlen|]; [|discriminate].
  destruct items as [|[s0 i0] items]; [discriminate|].
  inversion Hthr; subst s0. clear Hthr.
  unfold MaxK.insert. cbn [fst MaxK.place].
  rewrite (leb_not_ltb key s Hle).
  cbn [length] in *.
  replace (k <? S (S (length items)))%nat with true
    by (symmetry; apply Nat.ltb_lt; lia).
  reflexivity.
Qed.

(** ** The claims on the lifted vectors and on the pruning tests *)

(** The norms that the objects [A] and [P] come with are their Euclidean
    norms, without any rounding. *)
Lemma norms_exact :
  (exact a0 * exact a0 == exact_dot obj_a obj_a)%Q
  /\ (exact norm_p * exact norm_p == exact_dot obj_p obj_p)%Q.
Proof. split; vm_compute; reflexivity. Qed.

(** C1, failing inputs: the extra coordinate [sqrt(M_sqr - norm_d * norm_d)]
    is computed in [float], and the lifted vector need not have norm [M].
    For one object of norm [2^64], [M * M] overflows to infinity twice, the
    difference is a NaN and so is the stored coordinate.  For two objects of
    norms [2^-75] and [127/128 * 2^-75], which the ratios [c0 = 2] and
    [c = 0.5] put in one block of maximum norm [M = 2^-75], both squares
    underflow to zero, the extra coordinates are zero, and the lifted
    vector of the second object has its own norm, not [M]. *)
Theorem lifted_vector_norm_fails (k N_THRESHOLD : nat) :
  option_map h2_alsh_data_
    (bulkload (S k) N_THRESHOLD isort_desc 1 1 two half [[huge]] [huge] 1)
  = Some [[huge; nan]]
  /\ option_map (fun idx => (map Block.M_ (blocks_ idx), h2_alsh_data_ idx))
       (bulkload (S (S k)) N_THRESHOLD isort_desc 2 1 two half
                 [[tiny]; [tiny']] [tiny; tiny'] 2)
     = Some ([tiny], [[tiny; zero]; [tiny'; zero]])
  /\ (exact_dot [tiny'; zero] [tiny'; zero] < exact tiny * exact tiny)%Q.
Proof. repeat split; vm_compute; reflexivity. Qed.

(** C5, failing input: the stop test [M * normq <= kip] is taken on the
    rounded product.  The data are [A] and [P], the query is [P], with
    [c0 = 2], [c = 0.5] and [top_k = 1]; [bulkload] makes one block of each
    object.  [A] is scanned first and sets [kip] to its inner product
    27.915056; at the block of [P] the product of the norms rounds to that
    same number, the loop stops, and [A] is the answer, although the inner
    product of [P] with the query is larger, both as [kmip] would compute it
    (27.915058) and without rounding. *)
Theorem block_stop_discards_better
        (k n : nat) (knn : QALSH -> nat -> float -> list float -> list nat) :
  let data := [obj_a; obj_p] in
  let norm_d := [a0; norm_p] in
  let insert := MaxK.insert 1 neg_flt_max in
  exists idx,
    bulkload (S k) (S n) isort_desc 2 2 two half data norm_d 2 = Some idx
    /\ map (fun b => (Block.M_ b, Block.index_ b)) (blocks_ idx)
       = [(a0, [0%nat]); (norm_p, [1%nat])]
    /\ kmip_blocks (S n) 2 data norm_d MaxK.acc insert knn 1 obj_p norm_p
                   (blocks_ idx) [] neg_flt_max
       = ([(ip_a, 1%nat)], ip_a)
    /\ leb (mul norm_p norm_p) ip_a = true
    /\ calc_inner_product 2 obj_p obj_p = ip_p
    /\ ltb ip_a ip_p = true
    /\ (exact ip_a < exact_dot obj_p obj_p)%Q.
Proof.
  cbv zeta. eexists. split.
  - destruct k; vm_compute; reflexivity.
  - repeat split; vm_compute; reflexivity.
Qed.

(** C10, failing input: the test [norm_d_[id][0] * normq > kip] is taken on
    the rounded product.  The accumulator [MaxK] of capacity 1 meets the
    contract; with [c0 = 1.0625] and [c = 0.5], [bulkload] puts [A] and [P]
    in one block with an index.  On the candidates [0; 1] and the query [P]
    the loop of [kmip] inserts [A], skips [P] and ends with [A], and so
    does [kmip]; the loop that inserts the inner product of every candidate
    ends with [P]. *)
Theorem refine_candidates_skips_better (k : nat) :
  let data := [obj_a; obj_p] in
  let norm_d := [a0; norm_p] in
  let insert := MaxK.insert 1 neg_flt_max in
  let knn := fun (_ : QALSH) (_ : nat) (_ : float) (_ : list float) =>
               [0%nat; 1%nat] in
  returns_threshold neg_flt_max MaxK.acc insert (MaxK.threshold 1)
  /\ keeps_when_not_above MaxK.acc insert (MaxK.threshold 1)
  /\ exists idx,
       bulkload (S (S k)) 1 isort_desc 2 2 c0_small half data norm_d 2
       = Some idx
       /\ map Block.index_ (blocks_ idx) = [[0%nat; 1%nat]]
       /\ refine_candidates 2 data norm_d MaxK.acc insert obj_p norm_p
                            [0%nat; 1%nat] [0%nat; 1%nat] [] neg_flt_max
          = ([(ip_a, 1%nat)], ip_a)
       /\ refine_unfiltered 2 data MaxK.acc insert obj_p
                            [0%nat; 1%nat] [0%nat; 1%nat] [] neg_flt_max
          = ([(ip_p, 2%nat)], ip_p)
       /\ kmip 1 neg_flt_max 2 data norm_d MaxK.acc insert knn 1 obj_p norm_p
               idx []
          = [(ip_a, 1%nat)].
Proof.
  cbv zeta. split; [apply MaxK_returns_threshold|].
  split; [apply MaxK_keeps_when_not_above|].
  eexists. split; [vm_compute; reflexivity|].
  repeat split; vm_compute; reflexivity.
Qed.

(** ** The further properties on the objects [A] and [P] *)

Lemma pair_bulkload :
  bulkload 2 1 isort_desc 2 2 c0_small half [obj_a; obj_p] [a0; norm_p] 2
  = Some pair_index.
Proof. vm_compute. reflexivity. Qed.

Lemma lifted_vectors_layout_witness :
  h2_alsh_data_ pair_index
  = concat (map (fun blk =>
                   map (lifted 2 [obj_a; obj_p] [a0; norm_p] (Block.M_ blk))
                       (Block.index_ blk))
                (blocks_ pair_index)).
Proof.
  apply (lifted_vectors_layout 2 1 isort_desc 2 2 c0_small half
           [obj_a; obj_p] [a0; norm_p] 2 pair_index).
  - exact isort_desc_perm.
  - vm_compute. reflexivity.
Defined.

Lemma bulkload_ends_when_witness :
  ((forall i, (i < 2)%nat ->
      ltb (nth i [a0; norm_p] zero)
          (mul (nth i [a0; norm_p] zero) (blocking_ratio c0_small half))
      = false) ->
   exists idx,
     bulkload 2 1 isort_desc 2 2 c0_small half [obj_a; obj_p] [a0; norm_p] 2
     = Some idx)
  /\ (hd_error (map key_ (isort_desc (order_init 2 [a0; norm_p]))) = Some a0 ->
      ltb a0 (mul a0 (blocking_ratio c0_small half)) = true ->
      forall fuel,
        bulkload 2 1 isort_desc 2 2 c0_small half [obj_a; obj_p]
                 [a0; norm_p] fuel = None).
Proof.
  apply (bulkload_ends_when 2 1 isort_desc 2 2 c0_small half
           [obj_a; obj_p] [a0; norm_p] a0).
  - exact isort_desc_perm.
  - lia.
Defined.

Lemma kmip_bound_is_threshold_witness :
  tracks neg_flt_max MaxK.acc (MaxK.threshold 1)
         (fst (kmip_blocks 1 2 [obj_a; obj_p] [a0; norm_p] MaxK.acc
                           (MaxK.insert 1 neg_flt_max) (fun _ _ _ _ => [0; 1]%nat)
                           1 obj_p norm_p (blocks_ pair_index) [] neg_flt_max))
         (snd (kmip_blocks 1 2 [obj_a; obj_p] [a0; norm_p] MaxK.acc
                           (MaxK.insert 1 neg_flt_max) (fun _ _ _ _ => [0; 1]%nat)
                           1 obj_p norm_p (blocks_ pair_index) [] neg_flt_max)).
Proof.
  apply (kmip_bound_is_threshold 1 neg_flt_max 2 [obj_a; obj_p] [a0; norm_p]
           MaxK.acc (MaxK.insert 1 neg_flt_max) (fun _ _ _ _ => [0; 1]%nat)
           1 obj_p norm_p (MaxK.threshold 1) (blocks_ pair_index) []).
  apply MaxK_returns_threshold.
Defined.

End H2_ALSH_f32.

(* ====================================================================== *)
(** * L2_ALSH in binary32: the search (src/l2_alsh.cc, [kmip]) *)
(* ====================================================================== *)

Module L2_ALSH_f32.

Import Binary32.

(** [0.5f] *)
Definition half : float := S754_finite false 8388608 (-24).

Section Query.

Variables dim_ m_ : nat.
Variable data_ : list (list float).
Variable norm_d_ : list float.

(** [MINREAL] and [MAXREAL] of def.h. *)
Variables MINREAL MAXREAL : float.

(** The accumulator and the NN index, as for [H2_ALSH::kmip]; [lsh_] is the
    index that [bulkload] builds over the augmented data. *)
Variable MaxK_List : Type.
Variable insert : MaxK_List -> float -> nat -> MaxK_List * float.
Variable threshold : MaxK_List -> option float.
Variable knn : H2_ALSH_f32.QALSH -> nat -> float -> list float -> list nat.
Variable lsh_ : H2_ALSH_f32.QALSH.

Variable top_k : nat.
Variable query : list float.
Variable normq : float.

(** The augmented query: [query[i] / normq] below [dim_], then [0.5f]. *)
Definition l2_alsh_query : list float :=
  map (fun i => if (i <? dim_)%nat then div (nth i query zero) normq
                else half)
      (seq 0 (dim_ + m_)).

(** The loop over the candidates, with its [break]. *)
Fixpoint refine (cand : list nat) (lst : MaxK_List) (kip : float)
  : MaxK_List * float :=
  match cand with
  | [] => (lst, kip)
  | id :: cand' =>
      if leb (mul (nth id norm_d_ zero) normq) kip then (lst, kip)
      else
        let ip := calc_inner_product dim_ (nth id data_ []) query in
        let '(lst', kip') := insert lst ip (id + 1) in
        refine cand' lst' kip'
  end.

(** The candidates: [lsh_->knn(top_k, MAXREAL, l2_alsh_query, cand)]. *)
Definition candidates : list nat := knn lsh_ top_k MAXREAL l2_alsh_query.

Definition kmip (lst : MaxK_List) : MaxK_List :=
  fst (refine candidates lst MINREAL).


(** ** Properties beyond the claims *)


End Query.

(** The objects [A] and [P] of [H2_ALSH_f32], the query [P], one extra
    coordinate, and an index that returns both objects. *)
Definition ex_data : list (list float) :=
  [H2_ALSH_f32.obj_a; H2_ALSH_f32.obj_p].
Definition ex_norm : list float := [H2_ALSH_f32.a0; H2_ALSH_f32.norm_p].


End L2_ALSH_f32.

(* ====================================================================== *)
(** * SRP_LSH on vectors: the sign bits and [kmc] (src/srp_lsh.cc) *)
(* ====================================================================== *)

Module SRP_LSH_kmc.

Import Binary32.

Section Search.

(** Fields set by the constructor; [proj_] holds the [K_] projection
    vectors that it draws. *)
Variables n_pts_ dim_ : nat.
Variable K_ : Z.
Variable proj_ : list (list float).
Variable data_ : list (list float).

(** [calc_hash_code]: the sign of the projection as [float] arithmetic
    computes it, [true] for [>= 0] (and so for a negative zero, and [false]
    for a NaN).  The three-argument [calc_inner_product] of util.h is
    [Binary32.calc_inner_product]. *)
Definition calc_hash_code (id : nat) (data : list float) : bool :=
  leb zero (calc_inner_product dim_ (nth id proj_ []) data).

(** The loop [hash_code[j] = calc_hash_code(j, data)] over [j < K_]. *)
Definition hash_code (data : list float) : list bool :=
  map (fun j => calc_hash_code j data) (seq 0 (Z.to_nat K_)).

(** [hash_key_[i]], as the constructor fills it. *)
Definition hash_key_ (i : nat) : list Z :=
  SRP_LSH.compress_hash_code K_ (hash_code (nth i data_ [])).

(** The calls [list->insert((float) (total_bits - match), i)] of [kmc], in
    the order of the loop over the data objects: the score and the id. *)
Definition kmc_inserts (query : list float) : list (Z * nat) :=
  let hash_key_q := SRP_LSH.compress_hash_code K_ (hash_code query) in
  map (fun i => (SRP_LSH.kmc_score K_ (hash_key_ i) hash_key_q, i))
      (seq 0 n_pts_).

(** [MaxK_List] of pri_queue.h is not under src/: [new_list k] stands for
    [new MaxK_List(k)], [insert] for [list->insert(key, id)] (contents after
    the call and returned bound), [size] and [ith_id] for the accessors. *)
Variable MaxK_List : Type.
Variable new_list : Z -> MaxK_List.
Variable insert : MaxK_List -> float -> nat -> MaxK_List * float.
Variable size : MaxK_List -> nat.
Variable ith_id : MaxK_List -> nat -> nat.

(** [CANDIDATES] of def.h. *)
Variable CANDIDATES : Z.

(** [kmc]: the candidates pushed to [cand]. *)
Definition kmc (top_k : Z) (query : list float) : list nat :=
  let lst :=
    fold_left (fun lst si => fst (insert lst (of_int (fst si)) (snd si)))
              (kmc_inserts query)
              (new_list (CANDIDATES + top_k - 1)%Z) in
  map (ith_id lst) (seq 0 (size lst)).

(** ** Properties beyond the claims *)

(** X14 ([kmc], scores): for [0 < K_ <= 2^24] the score that [kmc] inserts
    for data object [i] is [64 * ceil(K_ / 64)] minus the number of
    projections on which the sign of the object and the sign of the query
    differ; it is computed without wrap-around and without rounding, lies
    between [64 * ceil(K_ / 64) - K_] and [64 * ceil(K_ / 64)], and the id
    inserted with it is [i] itself. *)
Theorem kmc_scores (query : list float) (i : nat) :
  (0 < K_ <= 2 ^ 24)%Z -> (i < n_pts_)%nat ->
  let differing :=
    SRP_LSH.hamming 0 (Z.to_nat K_) (hash_code (nth i data_ []))
                    (hash_code query) in
  length (kmc_inserts query) = n_pts_
  /\ nth i (kmc_inserts query) (0%Z, 0%nat)
     = ((64 * SRP_LSH.ceil_div K_ 64 - differing)%Z, i)
  /\ (0 <= differing <= K_)%Z.
Proof.
  intros HK Hi differing. unfold kmc_inserts. cbv zeta.
  split; [now rewrite length_map, length_seq|]. split.
  - set (f := fun i0 : nat =>
                (SRP_LSH.kmc_score K_ (hash_key_ i0)
                   (SRP_LSH.compress_hash_code K_ (hash_code query)), i0)).
    rewrite (nth_indep _ _ (f 0%nat)) by (now rewrite length_map, length_seq).
    rewrite map_nth, seq_nth by exact Hi. unfold f, hash_key_.
    cbn [Nat.add]. now rewrite SRP_LSH.kmc_score_compress.
  - pose proof (SRP_LSH.hamming_range 0 (Z.to_nat K_)
                  (hash_code (nth i data_ [])) (hash_code query)) as Hr.
    unfold differing. lia.
Qed.

End Search.

(** Two projections [1] and [-1] on the line, the objects [3] and [-3] and
    the query [3]. *)
Definition line_proj : list (list float) := [[of_int 1]; [of_int (-1)]].
Definition line_data : list (list float) := [[of_int 3]; [of_int (-3)]].
Definition line_query : list float := [of_int 3].

Lemma kmc_scores_witness :
  let differing :=
    SRP_LSH.hamming 0 (Z.to_nat 2) (hash_code 1 2 line_proj (nth 1 line_data []))
                    (hash_code 1 2 line_proj line_query) in
  length (kmc_inserts 2 1 2 line_proj line_data line_query) = 2%nat
  /\ nth 1 (kmc_inserts 2 1 2 line_proj line_data line_query) (0%Z, 0%nat)
     = ((64 * SRP_LSH.ceil_div 2 64 - differing)%Z, 1%nat)
  /\ (0 <= differing <= 2)%Z.
Proof.
  apply (kmc_scores 2 1 2 line_proj line_data line_query 1); lia.
Defined.

(** The objects [3] and [-3] have the sign bits [true; false] and
    [false; true], and the query [3] disagrees with the second one on both
    projections. *)
Example hash_code_example :
  hash_code 1 2 line_proj [of_int 3] = [true; false]
  /\ hash_code 1 2 line_proj [of_int (-3)] = [false; true]
  /\ SRP_LSH.hamming 0 2 (hash_code 1 2 line_proj [of_int (-3)])
                     (hash_code 1 2 line_proj [of_int 3]) = 2%Z.
Proof. repeat split; vm_compute; reflexivity. Qed.

End SRP_LSH_kmc.
